(** * qli_svg: rendering a qli motion program to SVG

    A shallow embedding of [src/qli/qli_svg.py].

    Numbers.  The program computes with Python floats and complex numbers.
    They are modelled by the real numbers [R] and by pairs of reals: the
    development is about the geometry the program computes, with exact
    arithmetic in place of binary64 rounding.  Python's [ZeroDivisionError]
    on a float division is kept (see [py_truediv]); NaN and infinities have
    no counterpart.

    Effects.  Methods that mutate [self] are functions from state to state.
    Code that can raise returns in the [result] type.  Writing to the file
    [f] appends to a list of chunks. *)

From Stdlib Require Import Reals Lra Lia ZArith List String Bool.
Import ListNotations.

#[local] Open Scope R_scope.
#[local] Open Scope string_scope.
#[local] Open Scope list_scope.

(** ** Python values *)

Module Py.

(** The exceptions the modelled code can raise. *)
Inductive exn : Type :=
| ZeroDivisionError
| IndexError.

(** A computation that returns a value or raises. *)
Inductive result (A : Type) : Type :=
| Ok (a : A)
| Raise (e : exn).

Arguments Ok {A} a.
Arguments Raise {A} e.

Definition bind {A B : Type} (m : result A) (k : A -> result B) : result B :=
  match m with
  | Ok a => k a
  | Raise e => Raise e
  end.

Notation "x <- m ;; k" := (bind m (fun x => k))
  (at level 61, m at next level, right associativity).

(** [max(a, b)]: the first argument unless the second is greater. *)
Definition max (a b : R) : R := if Rlt_dec a b then b else a.

(** [min(a, b)]: the first argument unless the second is smaller. *)
Definition min (a b : R) : R := if Rlt_dec b a then b else a.

(** [a < b] on floats, as a boolean. *)
Definition ltb (a b : R) : bool := if Rlt_dec a b then true else false.

(** [a / b] on Python floats. *)
Definition py_truediv (a b : R) : result R :=
  if Req_dec_T b 0 then Raise ZeroDivisionError else Ok (a / b).

(** [a % b] on Python floats, for a positive divisor. *)
Definition py_mod (a b : R) : R := a - b * IZR (Zfloor (a / b)).

(** [complex]: [real] and [imag]. *)
Record complex : Type := Cx { real : R; imag : R }.

Definition cadd (a b : complex) : complex :=
  Cx (real a + real b) (imag a + imag b).

Definition csub (a b : complex) : complex :=
  Cx (real a - real b) (imag a - imag b).

Definition cneg (a : complex) : complex := Cx (- real a) (- imag a).

(** A float (or int) times a complex, and a complex divided by one. *)
Definition cscale (k : R) (a : complex) : complex :=
  Cx (k * real a) (k * imag a).

Definition cdiv (a : complex) (k : R) : complex :=
  Cx (real a / k) (imag a / k).

(** [cmath.rect(r, phi)]. *)
Definition rect (r phi : R) : complex := Cx (r * cos phi) (r * sin phi).

(** [0j]. *)
Definition c0 : complex := Cx 0 0.

(** A [dict] from names to floats, in insertion order. *)
Definition dict : Type := list (string * R).

Fixpoint dict_set (k : string) (v : R) (d : dict) : dict :=
  match d with
  | [] => [(k, v)]
  | (k', v') :: d' =>
      if String.eqb k k' then (k, v) :: d' else (k', v') :: dict_set k v d'
  end.

Fixpoint dict_get (k : string) (d : dict) : option R :=
  match d with
  | [] => None
  | (k', v') :: d' => if String.eqb k k' then Some v' else dict_get k d'
  end.

(** [d.update(other)]. *)
Definition dict_update (d other : dict) : dict :=
  fold_left (fun acc kv => dict_set (fst kv) (snd kv) acc) other d.

End Py.

Import Py.

(** ** Module-level helpers *)

(** [merge_dicts]: the dicts merged left to right, later ones winning. *)
Definition merge_dicts (dict_args : list dict) : dict :=
  fold_left dict_update dict_args [].

Definition EPLSILON : R := 1 / 1000000.

(** The first loop of [condition_floats]. *)
Definition max_abs_of (kwds : dict) : R :=
  fold_left (fun max_abs kv => Py.max max_abs (Rabs (snd kv))) kwds 0.

(** [condition_floats], with the keyword arguments as a dict. *)
Definition condition_floats (epsilon : R) (kwds : dict) : dict :=
  let max_abs := max_abs_of kwds in
  map (fun kv =>
         (fst kv,
          if Rlt_dec (Rabs (snd kv) / epsilon) max_abs then 0 else snd kv))
      kwds.

(** ** Homogeneous 3x3 matrices *)

(** A [numpy] 3x3 array; [aij] is the entry [[i, j]]. *)
Record mat3 : Type := Mat3 {
  a00 : R; a01 : R; a02 : R;
  a10 : R; a11 : R; a12 : R;
  a20 : R; a21 : R; a22 : R
}.

(** [a @ b]. *)
Definition matmul (a b : mat3) : mat3 :=
  Mat3
    (a00 a * a00 b + a01 a * a10 b + a02 a * a20 b)
    (a00 a * a01 b + a01 a * a11 b + a02 a * a21 b)
    (a00 a * a02 b + a01 a * a12 b + a02 a * a22 b)
    (a10 a * a00 b + a11 a * a10 b + a12 a * a20 b)
    (a10 a * a01 b + a11 a * a11 b + a12 a * a21 b)
    (a10 a * a02 b + a11 a * a12 b + a12 a * a22 b)
    (a20 a * a00 b + a21 a * a10 b + a22 a * a20 b)
    (a20 a * a01 b + a21 a * a11 b + a22 a * a21 b)
    (a20 a * a02 b + a21 a * a12 b + a22 a * a22 b).

Infix "@" := matmul (at level 40, left associativity).

Definition mat_rot (rotation : complex) : mat3 :=
  Mat3 (real rotation) (- imag rotation) 0
       (imag rotation) (real rotation) 0
       0 0 1.

Definition mat_scale (scale : complex) : mat3 :=
  Mat3 (real scale) 0 0
       0 (imag scale) 0
       0 0 1.

Definition mat_trans (translation : complex) : mat3 :=
  Mat3 1 0 (real translation)
       0 1 (imag translation)
       0 0 1.

(** The image of the point [p] under the affine map of [m]: the first two
    rows of [m] applied to the column [(real p, imag p, 1)].  The SVG
    attribute [matrix(a,b,c,d,e,f)] written by [svg_header] denotes this map
    for [a = m[0,0]], [b = m[1,0]], [c = m[0,1]], [d = m[1,1]],
    [e = m[0,2]], [f = m[1,2]]. *)
Definition apply_mat (m : mat3) (p : complex) : complex :=
  Cx (a00 m * real p + a01 m * imag p + a02 m)
     (a10 m * real p + a11 m * imag p + a12 m).

(** [result_mat] of [svg_header]. *)
Definition svg_header_mat (size scale rotation : complex)
    (extents : complex * complex) : mat3 :=
  let centre :=
    cadd (fst extents) (cdiv (csub (snd extents) (fst extents)) 2) in
  mat_trans (cdiv size 2) @ mat_rot rotation @ mat_scale (Cx (-1) 1)
    @ mat_scale scale @ mat_trans (cneg centre).

(** [svg_header(size, scale, rotation, extents)]: the dict handed to
    [SVG_HEADER.format]. *)
Definition svg_header (size scale rotation : complex)
    (extents : complex * complex) : dict :=
  let result_mat := svg_header_mat size scale rotation extents in
  merge_dicts
    [ [("width", real size); ("height", imag size)];
      condition_floats EPLSILON
        [("m00", a00 result_mat); ("m10", a01 result_mat);
         ("m01", a10 result_mat); ("m11", a11 result_mat)];
      condition_floats EPLSILON
        [("translatex", a02 result_mat); ("translatey", a12 result_mat)] ].

(** ** Rendering parameters

    The [value_type] specs of the source, as records of their [FIELDS]. *)

Module BorderSpec.

Record t : Type := mk {
  color : string;
  border_margin : R
}.

End BorderSpec.

Module MarginSpec.

Record t : Type := mk {
  margin_width : R;
  margin_height : R
}.

(** [MarginSpec.get]. *)
Definition get (self : t) : complex :=
  Cx (margin_width self) (margin_height self).

End MarginSpec.

Module SvgOutputParams.

Record t : Type := mk {
  oncolor : string;
  offcolor : string;
  line_width : R;
  margin : MarginSpec.t;
  width : R;
  borders : list BorderSpec.t
}.

(** The defaults declared in [FIELDS]. *)
Definition default : t :=
  mk "black" "red" 1 (MarginSpec.mk 50 50) 700 [BorderSpec.mk "blue" 1].

End SvgOutputParams.

(** ** Paths

    [svg.path.Path] is a mutable sequence of segments; only [append],
    [insert(0, _)], [len] and indexing are used, so a path is the list of its
    segments. *)

Inductive segment : Type :=
| Move (to : complex)
| Line (start end_ : complex)
| Arc (start radius : complex) (rotation : R) (arc sweep : bool)
      (end_ : complex).

Definition Path : Type := list segment.

(** [isinstance(seg, svg.path.Move)]. *)
Definition is_Move (seg : segment) : bool :=
  match seg with
  | Move _ => true
  | _ => false
  end.

(** [seg.start]; a [Move] starts where it ends. *)
Definition segment_start (seg : segment) : complex :=
  match seg with
  | Move to => to
  | Line start _ => start
  | Arc start _ _ _ _ _ => start
  end.

(** What is written to the file [f]: the header with the dict it is formatted
    from, one [<path>] element per call of [svg_path], and the footer. *)
Inductive chunk : Type :=
| SVG_HEADER (fields : dict)
| SVG_PATH (path : Path) (color : string) (stroke_width : R)
| SVG_FOOTER.

(** [svg_path(path, color, stroke_width)]. *)
Definition svg_path (path : Path) (color : string) (stroke_width : R) : chunk :=
  SVG_PATH path color stroke_width.

Module SvgPath.

Record t : Type := mk {
  needle_state : bool;
  path : Path;
  alternate_color : option string
}.

(** [SvgPath.__init__]: [self.path[0]] raises on an empty path; a path that
    does not start with a [Move] gets one inserted in front. *)
Definition init (needle_state : bool) (path : Path)
    (alternate_color : option string) : result t :=
  match path with
  | [] => Raise IndexError
  | first :: _ =>
      if negb (is_Move first)
      then Ok (mk needle_state (Move (segment_start first) :: path)
                  alternate_color)
      else Ok (mk needle_state path alternate_color)
  end.

End SvgPath.

Module SvgPattern.

(** The [program] attribute is never read by the methods and is left out. *)
Record t : Type := mk {
  extents : complex * complex;
  svg_elements : list SvgPath.t
}.

(** [SvgPattern.__init__]. *)
Definition init (extents : complex * complex) : t := mk extents [].

(** [append]. *)
Definition append (self : t) (path : SvgPath.t) : t :=
  mk (extents self) (svg_elements self ++ [path]).

(** [add_bounding_box(color, offset)]. *)
Definition add_bounding_box (self : t) (color : string) (offset : complex)
    : result t :=
  let extents := (csub (fst (extents self)) offset,
                  cadd (snd (extents self)) offset) in
  let e0 := fst extents in
  let e1 := snd extents in
  let box :=
    [ Line e0 (Cx (real e0) (imag e1));
      Line (Cx (real e0) (imag e1)) e1;
      Line e1 (Cx (real e1) (imag e0));
      Line (Cx (real e1) (imag e0)) e0 ] in
  p <- SvgPath.init false box (Some color) ;;
  Ok (append self p).

End SvgPattern.

Module SvgOutContext.

(** The [pattern] attribute is only read inside [__init__]. *)
Record t : Type := mk {
  params : SvgOutputParams.t;
  bounding_box_delta : complex;
  line_width : R
}.

(** [SvgOutContext.__init__]. *)
Definition init (pattern : SvgPattern.t) (params : SvgOutputParams.t) : t :=
  let extents := SvgPattern.extents pattern in
  let size := csub (snd extents) (fst extents) in
  mk params
     (cscale (IZR (Zceil ((real size + imag size) * (2 / 100)))) (Cx 1 1))
     (IZR (Zceil ((real size + imag size) * (1 / 1000)))
      * SvgOutputParams.line_width params).

End SvgOutContext.

(** [SvgPath.svg(context)].  An [alternate_color] that is [None] or the empty
    string is falsy. *)
Definition SvgPath_svg (self : SvgPath.t) (context : SvgOutContext.t) : chunk :=
  let params := SvgOutContext.params context in
  let color := if SvgPath.needle_state self
               then SvgOutputParams.oncolor params
               else SvgOutputParams.offcolor params in
  let color := match SvgPath.alternate_color self with
               | Some c => if String.eqb c EmptyString then color else c
               | None => color
               end in
  svg_path (SvgPath.path self) color (SvgOutContext.line_width context).

(** [SvgPattern.write(f, context)]: the contents of [f] afterwards. *)
Definition SvgPattern_write (self : SvgPattern.t) (f : list chunk)
    (context : SvgOutContext.t) : result (list chunk) :=
  let extents := SvgPattern.extents self in
  let pattern_size := csub (snd extents) (fst extents) in
  let sizex := SvgOutputParams.width (SvgOutContext.params context) in
  scale <- py_truediv sizex (real pattern_size) ;;
  let sizey := scale * imag pattern_size in
  let overall_size :=
    cadd (Cx sizex sizey)
         (cscale 2
            (MarginSpec.get
               (SvgOutputParams.margin (SvgOutContext.params context)))) in
  let f := f ++ [SVG_HEADER (svg_header overall_size (Cx scale scale)
                               (rect 1 PI) extents)] in
  let f := fold_left (fun f element => f ++ [SvgPath_svg element context])
                     (SvgPattern.svg_elements self) f in
  Ok (f ++ [SVG_FOOTER]).

(** The loop over [params.borders] in [write_svg]. *)
Fixpoint add_borders (pattern : SvgPattern.t) (context : SvgOutContext.t)
    (borders : list BorderSpec.t) : result SvgPattern.t :=
  match borders with
  | [] => Ok pattern
  | border :: rest =>
      pattern <- SvgPattern.add_bounding_box pattern (BorderSpec.color border)
                   (cscale (BorderSpec.border_margin border)
                           (SvgOutContext.bounding_box_delta context)) ;;
      add_borders pattern context rest
  end.

(** [SvgPattern.write_svg(f, params)]: the pattern and the contents of [f]
    afterwards. *)
Definition SvgPattern_write_svg (self : SvgPattern.t) (f : list chunk)
    (params : SvgOutputParams.t) : result (SvgPattern.t * list chunk) :=
  let context := SvgOutContext.init self params in
  pattern <- add_borders self context (SvgOutputParams.borders params) ;;
  f <- SvgPattern_write pattern f context ;;
  Ok (pattern, f).

(** ** Commands *)

(** An index into the pair of arguments of a position command. *)
Inductive index : Type := I0 | I1.

(** [args[i]] for a pair [args]. *)
Definition pair_get (args : R * R) (i : index) : R :=
  match i with
  | I0 => fst args
  | I1 => snd args
  end.

(** Modelled from the spec: the command classes of [qli_parser], which is not
    part of the sources at hand.  One constructor per visitor callback, with
    the fields the callbacks read; [axes] holds two indices into the argument
    pair. *)
Inductive command : Type :=
| VectorMotion (axes : index * index)
| Circle (radius start_angle angle_range : R)
| VectorPosition (d1 d2 : R)
| ClearSequence
| VectorSequenceEnd
| NeedleOff
| NeedleOn
| End.

(** ** The extent pass *)

Module QliSvgExtentsExecutor.

Record t : Type := mk {
  axes : index * index;
  cur_loc : complex;
  min_extent : complex;
  max_extent : complex;
  relative : complex
}.

(** [__init__]. *)
Definition init : t := mk (I0, I1) c0 c0 c0 c0.

(** [coord(d1, d2)]. *)
Definition coord (self : t) (d1 d2 : R) : complex :=
  let args := (d1, d2) in
  Cx (pair_get args (fst (axes self))) (pair_get args (snd (axes self))).

(** [new_extent(loc)]. *)
Definition new_extent (self : t) (loc : complex) : t :=
  mk (axes self) (cur_loc self)
     (Cx (Py.min (real loc) (real (min_extent self)))
         (Py.min (imag loc) (imag (min_extent self))))
     (Cx (Py.max (real loc) (real (max_extent self)))
         (Py.max (imag loc) (imag (max_extent self))))
     (relative self).

(** [doVectorMotion]. *)
Definition doVectorMotion (self : t) (command_axes : index * index) : t :=
  mk command_axes (cur_loc self) (min_extent self) (max_extent self)
     (relative self).

(** The [while] loop of [doCircle], entered with the counter at [i]; each
    unit of [fuel] pays for one test of the loop condition. *)
Fixpoint circle_loop (fuel : nat) (r : R) (sp : complex) (saf : Z) (eaf : R)
    (i : Z) (self : t) : t :=
  match fuel with
  | O => self
  | S fuel =>
      if (i <? 4)%Z && ltb (IZR (saf + i)) eaf
      then
        let ex := rect r (PI * (1 / 2) * IZR (saf + i)) in
        circle_loop fuel r sp saf eaf (i + 1)
          (new_extent self (cadd (csub ex sp) (cur_loc self)))
      else self
  end.

(** [doCircle].  The counter starts at 1 and the loop stops at 4, so four
    tests of the condition suffice (see [circle_loop_fuel]). *)
Definition doCircle (self : t) (radius start_angle angle_range : R) : t :=
  let r := radius in
  let sa := start_angle * PI / 180 in
  let ea := sa + angle_range * PI / 180 in
  let sp := rect r sa in
  let ep := rect r ea in
  let delta := csub ep sp in
  let next_loc := cadd (cur_loc self) delta in
  let self := new_extent self next_loc in
  let saf := 2 * sa / PI in
  let eaf := 2 * ea / PI in
  let '(eaf, saf) := if Rlt_dec eaf saf then (saf, eaf) else (eaf, saf) in
  let saf := Zfloor saf in
  let self := circle_loop 4 r sp saf eaf 1 self in
  mk (axes self) next_loc (min_extent self) (max_extent self) (relative self).

(** [doVectorPosition]. *)
Definition doVectorPosition (self : t) (d1 d2 : R) : t :=
  let next_loc := cadd (coord self d1 d2) (relative self) in
  let self := new_extent self next_loc in
  mk (axes self) next_loc (min_extent self) (max_extent self) (relative self).

(** [doClearSequence]. *)
Definition doClearSequence (self : t) : t :=
  mk (axes self) c0 (min_extent self) (max_extent self) (relative self).

(** [doVectorSequenceEnd]. *)
Definition doVectorSequenceEnd (self : t) : t :=
  mk (axes self) (cur_loc self) (min_extent self) (max_extent self)
     (cur_loc self).

(** [get_extents]. *)
Definition get_extents (self : t) : complex * complex :=
  (min_extent self, max_extent self).

(** Modelled from the spec: the dispatch of [qli_parser.QliExecutor], which
    calls the callback of the command's kind; the callbacks this class does
    not define ([doNeedleOff], [doNeedleOn], [doEnd]) have no effect on this
    pass. *)
Definition visit (self : t) (c : command) : t :=
  match c with
  | VectorMotion command_axes => doVectorMotion self command_axes
  | Circle radius start_angle angle_range =>
      doCircle self radius start_angle angle_range
  | VectorPosition d1 d2 => doVectorPosition self d1 d2
  | ClearSequence => doClearSequence self
  | VectorSequenceEnd => doVectorSequenceEnd self
  | NeedleOff | NeedleOn | End => self
  end.

(** Modelled from the spec: [program.execute(visitor)] calls the visitor once
    per command, in order. *)
Definition execute (program : list command) (self : t) : t :=
  fold_left visit program self.

End QliSvgExtentsExecutor.

(** ** The render pass *)

Module QliSvgExecutor.

Record t : Type := mk {
  axes : index * index;
  needle_on : bool;
  svg_current_path : Path;
  extents : QliSvgExtentsExecutor.t;
  start_loc : complex;
  cur_loc : complex;
  pattern : SvgPattern.t;
  relative : complex
}.

(** [__init__]: runs the extent pass over the program. *)
Definition init (program : list command) : t :=
  let extents :=
    QliSvgExtentsExecutor.execute program QliSvgExtentsExecutor.init in
  mk (I0, I1) true [] extents c0 c0
     (SvgPattern.init (QliSvgExtentsExecutor.get_extents extents)) c0.

(** [coord(d1, d2)]. *)
Definition coord (self : t) (d1 d2 : R) : complex :=
  let args := (d1, d2) in
  Cx (pair_get args (fst (axes self))) (pair_get args (snd (axes self))).

Definition set_axes (self : t) (v : index * index) : t :=
  mk v (needle_on self) (svg_current_path self) (extents self)
     (start_loc self) (cur_loc self) (pattern self) (relative self).

Definition set_needle_on (self : t) (v : bool) : t :=
  mk (axes self) v (svg_current_path self) (extents self)
     (start_loc self) (cur_loc self) (pattern self) (relative self).

Definition set_svg_current_path (self : t) (v : Path) : t :=
  mk (axes self) (needle_on self) v (extents self)
     (start_loc self) (cur_loc self) (pattern self) (relative self).

Definition set_cur_loc (self : t) (v : complex) : t :=
  mk (axes self) (needle_on self) (svg_current_path self) (extents self)
     (start_loc self) v (pattern self) (relative self).

Definition set_pattern (self : t) (v : SvgPattern.t) : t :=
  mk (axes self) (needle_on self) (svg_current_path self) (extents self)
     (start_loc self) (cur_loc self) v (relative self).

Definition set_relative (self : t) (v : complex) : t :=
  mk (axes self) (needle_on self) (svg_current_path self) (extents self)
     (start_loc self) (cur_loc self) (pattern self) v.

(** [end_path]. *)
Definition end_path (self : t) : result t :=
  self <- (if negb (List.length (svg_current_path self) =? 0)%nat
           then
             p <- SvgPath.init (needle_on self) (svg_current_path self) None ;;
             Ok (set_pattern self (SvgPattern.append (pattern self) p))
           else Ok self) ;;
  Ok (set_svg_current_path self []).

(** [doVectorMotion]. *)
Definition doVectorMotion (self : t) (command_axes : index * index) : t :=
  set_axes self command_axes.

(** [doCircle]; the branch taken is the one under [if True]. *)
Definition doCircle (self : t) (radius start_angle angle_range : R) : t :=
  let r := radius in
  let sa := PI * start_angle / 180 in
  let ea := sa + angle_range * PI / 180 in
  let sp := rect r sa in
  let ep := rect r ea in
  let delta := csub ep sp in
  let next_loc := cadd (cur_loc self) delta in
  let mod_angle := py_mod (Rabs angle_range) 360 in
  let large_arc := ltb 180 mod_angle in
  let sweep := ltb 0 angle_range in
  let arc := Arc (cur_loc self) (Cx r r) 0 large_arc sweep next_loc in
  let self := set_svg_current_path self (svg_current_path self ++ [arc]) in
  set_cur_loc self next_loc.

(** [doVectorPosition]. *)
Definition doVectorPosition (self : t) (d1 d2 : R) : t :=
  let next_loc := cadd (coord self d1 d2) (relative self) in
  let line := Line (cur_loc self) next_loc in
  let self := set_svg_current_path self (svg_current_path self ++ [line]) in
  set_cur_loc self next_loc.

(** [doVectorSequenceEnd]. *)
Definition doVectorSequenceEnd (self : t) : result t :=
  self <- end_path self ;;
  Ok (set_relative self (cur_loc self)).

(** [doClearSequence]. *)
Definition doClearSequence (self : t) : t :=
  set_cur_loc self (start_loc self).

(** [set_needle(state)]. *)
Definition set_needle (self : t) (state : bool) : result t :=
  self <- (if negb (Bool.eqb (needle_on self) state)
           then end_path self else Ok self) ;;
  Ok (set_needle_on self state).

(** [doNeedleOff], [doNeedleOn] and [doEnd]. *)
Definition doNeedleOff (self : t) : result t := set_needle self false.
Definition doNeedleOn (self : t) : result t := set_needle self true.
Definition doEnd (self : t) : result t := end_path self.

(** Modelled from the spec: the dispatch of [qli_parser.QliExecutor], which
    calls the callback of the command's kind. *)
Definition visit (self : t) (c : command) : result t :=
  match c with
  | VectorMotion command_axes => Ok (doVectorMotion self command_axes)
  | Circle radius start_angle angle_range =>
      Ok (doCircle self radius start_angle angle_range)
  | VectorPosition d1 d2 => Ok (doVectorPosition self d1 d2)
  | ClearSequence => Ok (doClearSequence self)
  | VectorSequenceEnd => doVectorSequenceEnd self
  | NeedleOff => doNeedleOff self
  | NeedleOn => doNeedleOn self
  | End => doEnd self
  end.

(** Modelled from the spec: [program.execute(visitor)] calls the visitor once
    per command, in order; an exception ends the pass. *)
Fixpoint execute (program : list command) (self : t) : result t :=
  match program with
  | [] => Ok self
  | c :: rest => self <- visit self c ;; execute rest self
  end.

(** [run], for an executor built from [program]. *)
Definition run (program : list command) (self : t) : result t :=
  self <- execute program self ;;
  end_path self.

(** [get_svg_patttern]. *)
Definition get_svg_patttern (self : t) : result (t * SvgPattern.t) :=
  self <- end_path self ;;
  Ok (self, pattern self).

End QliSvgExecutor.

(** ** The driver *)

(** Modelled from the spec: the driver, which is not part of the sources at
    hand.  Extent pass and render pass over the program, then the pattern is
    written with its borders. *)
Definition render (program : list command) (params : SvgOutputParams.t)
    : result (list chunk) :=
  executor <- QliSvgExecutor.run program (QliSvgExecutor.init program) ;;
  got <- QliSvgExecutor.get_svg_patttern executor ;;
  written <- SvgPattern_write_svg (snd got) [] params ;;
  Ok (snd written).

(** * Vocabulary of the properties *)

(** ** Bounding boxes *)

(** The point [p] lies in the box with corners [fst box] and [snd box]. *)
Definition contains (box : complex * complex) (p : complex) : Prop :=
  (real (fst box) <= real p <= real (snd box))
  /\ (imag (fst box) <= imag p <= imag (snd box)).

(** The point [p] lies within [tol] of the box. *)
Definition contains_within (tol : R) (box : complex * complex) (p : complex)
    : Prop :=
  (real (fst box) - tol <= real p <= real (snd box) + tol)
  /\ (imag (fst box) - tol <= imag p <= imag (snd box) + tol).

(** The points at 0, 90, 180 and 270 degrees of the circle of radius [r]
    around [centre]. *)
Definition cardinal_extrema (centre : complex) (r : R) : list complex :=
  [ Cx (real centre + r) (imag centre);
    Cx (real centre) (imag centre + r);
    Cx (real centre - r) (imag centre);
    Cx (real centre) (imag centre - r) ].

(** The invariant of the extent pass: the origin and the current location
    are in the box. *)
Definition extents_inv (self : QliSvgExtentsExecutor.t) : Prop :=
  contains (QliSvgExtentsExecutor.get_extents self) c0
  /\ contains (QliSvgExtentsExecutor.get_extents self)
              (QliSvgExtentsExecutor.cur_loc self).

(** ** Float clean-up *)

(** [m] is the largest absolute value among the components of the group. *)
Definition is_largest_abs (kwds : dict) (m : R) : Prop :=
  (exists kv, In kv kwds /\ Rabs (snd kv) = m)
  /\ (forall kv, In kv kwds -> Rabs (snd kv) <= m).

(** What [condition_floats] makes of the component [v] of [group]. *)
Definition cleaned (group : dict) (v : R) : R :=
  if Rlt_dec (Rabs v / EPLSILON) (max_abs_of group) then 0 else v.

(** ** The document writer *)

(** The size [S] of the pattern's bounding box. *)
Definition pattern_size (self : SvgPattern.t) : complex :=
  csub (snd (SvgPattern.extents self)) (fst (SvgPattern.extents self)).

(** The canvas size [write] hands to [svg_header], for a scale [scale]. *)
Definition overall_size (self : SvgPattern.t) (params : SvgOutputParams.t)
    (scale : R) : complex :=
  cadd (Cx (SvgOutputParams.width params) (scale * imag (pattern_size self)))
       (cscale 2 (MarginSpec.get (SvgOutputParams.margin params))).

(** The [SvgPath] that [add_bounding_box(color, offset)] appends: the
    rectangle around the extents widened by [offset], behind the [Move] that
    [SvgPath.__init__] puts in front (see [add_bounding_box_ok]). *)
Definition bounding_box_path (extents : complex * complex) (color : string)
    (offset : complex) : SvgPath.t :=
  let e0 := csub (fst extents) offset in
  let e1 := cadd (snd extents) offset in
  SvgPath.mk false
    [ Move e0;
      Line e0 (Cx (real e0) (imag e1));
      Line (Cx (real e0) (imag e1)) e1;
      Line e1 (Cx (real e1) (imag e0));
      Line (Cx (real e1) (imag e0)) e0 ]
    (Some color).

(** The border paths of [write_svg], one per border spec, in list order. *)
Definition border_paths (self : SvgPattern.t) (params : SvgOutputParams.t)
    : list SvgPath.t :=
  let context := SvgOutContext.init self params in
  map (fun border =>
         bounding_box_path (SvgPattern.extents self) (BorderSpec.color border)
           (cscale (BorderSpec.border_margin border)
                   (SvgOutContext.bounding_box_delta context)))
      (SvgOutputParams.borders params).

(** A computation that raises. *)
Definition raises {A : Type} (m : result A) : Prop := exists e, m = Raise e.

(** ** The fitting transform *)

(** The steps the specification composes, as maps on points. *)
Definition translate (d p : complex) : complex := cadd p d.

Definition rotate_180 (p : complex) : complex := Cx (- real p) (- imag p).

(** A mirror scale that flips the vertical axis: [y] changes sign. *)
Definition mirror_vertical (p : complex) : complex := Cx (real p) (- imag p).

(** The mirror scale of the code, [mat_scale(-1+1j)]: [x] changes sign. *)
Definition mirror_horizontal (p : complex) : complex := Cx (- real p) (imag p).

Definition scale_uniform (k : R) (p : complex) : complex := cscale k p.

(** The centre of the pattern, as [svg_header] computes it. *)
Definition centre_of (extents : complex * complex) : complex :=
  cadd (fst extents) (cdiv (csub (snd extents) (fst extents)) 2).

(** The composition as the specification words it: (a) centre to the origin,
    (b) half turn, (c) mirror flipping the vertical axis, (d) uniform scale,
    (e) centre of the drawing to the centre of the canvas. *)
Definition stated_transform (extents : complex * complex) (k : R)
    (size p : complex) : complex :=
  translate (cdiv size 2)
    (scale_uniform k
       (mirror_vertical (rotate_180 (translate (cneg (centre_of extents)) p)))).

(** The same composition with the mirror of the code at step (c). *)
Definition fitting_transform (extents : complex * complex) (k : R)
    (size p : complex) : complex :=
  translate (cdiv size 2)
    (scale_uniform k
       (mirror_horizontal
          (rotate_180 (translate (cneg (centre_of extents)) p)))).

(** ** The path builder *)

(** The path of the segment starts with a [Move]. *)
Definition begins_with_Move (p : SvgPath.t) : bool :=
  match SvgPath.path p with
  | first :: _ => is_Move first
  | [] => false
  end.

(** The [SvgPath] that [SvgPath.__init__] builds from a non-empty path with
    first segment [first] (see [SvgPath_init_ok]). *)
Definition materialized (needle_state : bool) (first : segment) (rest : Path)
    (alternate_color : option string) : SvgPath.t :=
  SvgPath.mk needle_state
    (if is_Move first then first :: rest
     else Move (segment_start first) :: first :: rest)
    alternate_color.

(** The callbacks that call [end_path]: the end of a sequence, the end of
    the program, and a needle command that changes the needle state. *)
Definition flushes (self : QliSvgExecutor.t) (c : command) : bool :=
  match c with
  | VectorSequenceEnd | End => true
  | NeedleOff => QliSvgExecutor.needle_on self
  | NeedleOn => negb (QliSvgExecutor.needle_on self)
  | _ => false
  end.

(** The segments pushed so far. *)
Definition segments (self : QliSvgExecutor.t) : list SvgPath.t :=
  SvgPattern.svg_elements (QliSvgExecutor.pattern self).

(** The stream of the tool-state round trip. *)
Definition toggle_stream (a1 a2 b1 b2 c1 c2 : R) : list command :=
  [ VectorPosition a1 a2; NeedleOff; VectorPosition b1 b2; NeedleOn;
    VectorPosition c1 c2; End ].

(** ** Examples *)

(** The stream of the scenario of the specification: three positions, then
    the end of the sequence and of the program. *)
Definition corner_stream : list command :=
  [ VectorMotion (I0, I1); VectorPosition 0 0; VectorPosition 10 0;
    VectorPosition 10 10; VectorSequenceEnd; End ].

(** ** Further vocabulary *)

(** Commands other than [Circle], and other than [ClearSequence]. *)
Definition no_Circle (c : command) : bool :=
  match c with
  | Circle _ _ _ => false
  | _ => true
  end.

Definition no_ClearSequence (c : command) : bool :=
  match c with
  | ClearSequence => false
  | _ => true
  end.

(** The location of the extent pass after the first [n] commands. *)
Definition visited (program : list command) (n : nat) : complex :=
  QliSvgExtentsExecutor.cur_loc
    (QliSvgExtentsExecutor.execute (firstn n program)
       QliSvgExtentsExecutor.init).

(** A fresh extent pass that starts with the axes [axes]. *)
Definition fresh_with_axes (axes : index * index) : QliSvgExtentsExecutor.t :=
  QliSvgExtentsExecutor.mk axes c0 c0 c0 c0.

(** The quarter point [k] of the arc of [doCircle]: the point of the circle
    at [k] times 90 degrees, shifted like the arc. *)
Definition quarter_point (self : QliSvgExtentsExecutor.t)
    (radius start_angle : R) (k : Z) : complex :=
  cadd (csub (rect radius (PI * (1 / 2) * IZR k))
             (rect radius (start_angle * PI / 180)))
       (QliSvgExtentsExecutor.cur_loc self).

(** The extent pass [b] is the extent pass [a] moved by [o]: same axes,
    current location and relative origin shifted by [o]. *)
Definition shifted (o : complex) (a b : QliSvgExtentsExecutor.t) : Prop :=
  QliSvgExtentsExecutor.axes b = QliSvgExtentsExecutor.axes a
  /\ QliSvgExtentsExecutor.cur_loc b
     = cadd (QliSvgExtentsExecutor.cur_loc a) o
  /\ QliSvgExtentsExecutor.relative b
     = cadd (QliSvgExtentsExecutor.relative a) o.

(** The pattern after [end_path]: the open path, if there is one, is pushed
    as a segment tagged with the needle state. *)
Definition flushed_pattern (self : QliSvgExecutor.t) : SvgPattern.t :=
  match QliSvgExecutor.svg_current_path self with
  | [] => QliSvgExecutor.pattern self
  | first :: rest =>
      SvgPattern.append (QliSvgExecutor.pattern self)
        (materialized (QliSvgExecutor.needle_on self) first rest None)
  end.

(** The state [end_path] leaves; it never raises (see [end_path_flush]). *)
Definition flush (self : QliSvgExecutor.t) : QliSvgExecutor.t :=
  QliSvgExecutor.set_svg_current_path
    (QliSvgExecutor.set_pattern self (flushed_pattern self)) [].

(** The state a callback of the render pass leaves; none raises (see
    [visit_step]). *)
Definition step (self : QliSvgExecutor.t) (c : command) : QliSvgExecutor.t :=
  match c with
  | VectorMotion command_axes =>
      QliSvgExecutor.doVectorMotion self command_axes
  | Circle radius start_angle angle_range =>
      QliSvgExecutor.doCircle self radius start_angle angle_range
  | VectorPosition d1 d2 => QliSvgExecutor.doVectorPosition self d1 d2
  | ClearSequence => QliSvgExecutor.doClearSequence self
  | VectorSequenceEnd =>
      QliSvgExecutor.set_relative (flush self)
        (QliSvgExecutor.cur_loc (flush self))
  | NeedleOff =>
      QliSvgExecutor.set_needle_on
        (if QliSvgExecutor.needle_on self then flush self else self) false
  | NeedleOn =>
      QliSvgExecutor.set_needle_on
        (if QliSvgExecutor.needle_on self then self else flush self) true
  | End => flush self
  end.

(** [seg.end]. *)
Definition segment_end (seg : segment) : complex :=
  match seg with
  | Move to => to
  | Line _ end_ => end_
  | Arc _ _ _ _ _ end_ => end_
  end.

(** The points a segment names: where it starts and where it ends. *)
Definition segment_points (seg : segment) : list complex :=
  [segment_start seg; segment_end seg].

(** Every point of the path lies in the box. *)
Definition path_in (box : complex * complex) (path : Path) : Prop :=
  Forall (fun seg => Forall (contains box) (segment_points seg)) path.

(** The path runs from [from] without a gap: every segment starts where the
    one before it ended. *)
Fixpoint chained (from : complex) (path : Path) : Prop :=
  match path with
  | [] => True
  | seg :: rest => segment_start seg = from /\ chained (segment_end seg) rest
  end.

(** Where a path that starts at [from] ends. *)
Definition path_end (from : complex) (path : Path) : complex :=
  fold_left (fun _ seg => segment_end seg) path from.

Definition contiguous (path : Path) : Prop := exists from, chained from path.

(** The lines and arcs of a path. *)
Definition strokes (path : Path) : Path :=
  filter (fun seg => negb (is_Move seg)) path.

(** The commands that draw: positions and arcs. *)
Definition is_motion (c : command) : bool :=
  match c with
  | VectorPosition _ _ | Circle _ _ _ => true
  | _ => false
  end.

(** The render pass [p] and the extent pass [e] stand at the same place. *)
Definition agree (p : QliSvgExecutor.t) (e : QliSvgExtentsExecutor.t) : Prop :=
  QliSvgExecutor.axes p = QliSvgExtentsExecutor.axes e
  /\ QliSvgExecutor.cur_loc p = QliSvgExtentsExecutor.cur_loc e
  /\ QliSvgExecutor.relative p = QliSvgExtentsExecutor.relative e
  /\ QliSvgExecutor.start_loc p = c0.

(** The open path and the pushed segments of the render pass [p] lie in the
    box of the extent pass [e]. *)
Definition inside (p : QliSvgExecutor.t) (e : QliSvgExtentsExecutor.t)
    : Prop :=
  path_in (QliSvgExtentsExecutor.get_extents e)
          (QliSvgExecutor.svg_current_path p)
  /\ Forall (fun sp =>
               path_in (QliSvgExtentsExecutor.get_extents e) (SvgPath.path sp))
            (segments p).

(** The number of lines and arcs the render pass holds, pushed or open. *)
Definition drawn (p : QliSvgExecutor.t) : nat :=
  List.length (flat_map (fun sp => strokes (SvgPath.path sp)) (segments p))
  + List.length (strokes (QliSvgExecutor.svg_current_path p)).

(** The open path of the render pass runs without a gap up to the current
    location, and so does every pushed segment. *)
Definition gapless (p : QliSvgExecutor.t) : Prop :=
  (exists from,
      chained from (QliSvgExecutor.svg_current_path p)
      /\ path_end from (QliSvgExecutor.svg_current_path p)
         = QliSvgExecutor.cur_loc p)
  /\ Forall (fun sp => contiguous (SvgPath.path sp)) (segments p).

(** A matrix of an affine map: its last row is [0 0 1]. *)
Definition affine (m : mat3) : Prop := a20 m = 0 /\ a21 m = 0 /\ a22 m = 1.

(** The product of two complex numbers. *)
Definition cmul (a b : complex) : complex :=
  Cx (real a * real b - imag a * imag b) (real a * imag b + imag a * real b).

(** The corners of a box are in order. *)
Definition box_ordered (box : complex * complex) : Prop :=
  real (fst box) <= real (snd box) /\ imag (fst box) <= imag (snd box).

(** * Properties *)

(** ** Python's [min] and [max] *)

Lemma py_min_Rmin (a b : R) : Py.min a b = Rmin a b.
Proof.
  unfold Py.min, Rmin.
  destruct (Rlt_dec b a), (Rle_dec a b); lra.
Qed.

Lemma py_max_Rmax (a b : R) : Py.max a b = Rmax a b.
Proof.
  unfold Py.max, Rmax.
  destruct (Rlt_dec a b), (Rle_dec a b); lra.
Qed.

Lemma py_min_bounds (a b : R) : Py.min a b <= a /\ Py.min a b <= b.
Proof. unfold Py.min. destruct (Rlt_dec b a); lra. Qed.

Lemma py_max_bounds (a b : R) : a <= Py.max a b /\ b <= Py.max a b.
Proof. unfold Py.max. destruct (Rlt_dec a b); lra. Qed.

Lemma py_max_lub (a b c : R) : a <= c -> b <= c -> Py.max a b <= c.
Proof. intros Ha Hb. unfold Py.max. destruct (Rlt_dec a b); lra. Qed.

Lemma py_min_glb (a b c : R) : c <= a -> c <= b -> c <= Py.min a b.
Proof. intros Ha Hb. unfold Py.min. destruct (Rlt_dec b a); lra. Qed.

Lemma py_min_l (a b : R) : a <= b -> Py.min a b = a.
Proof. intros H. unfold Py.min. destruct (Rlt_dec b a); lra. Qed.

Lemma py_min_r (a b : R) : b < a -> Py.min a b = b.
Proof. intros H. unfold Py.min. destruct (Rlt_dec b a); lra. Qed.

Lemma py_max_l (a b : R) : b <= a -> Py.max a b = a.
Proof. intros H. unfold Py.max. destruct (Rlt_dec a b); lra. Qed.

Lemma py_max_r (a b : R) : a < b -> Py.max a b = b.
Proof. intros H. unfold Py.max. destruct (Rlt_dec a b); lra. Qed.

Lemma ltb_true (a b : R) : a < b -> ltb a b = true.
Proof. intros H. unfold ltb. destruct (Rlt_dec a b); [reflexivity | lra]. Qed.

Lemma ltb_false (a b : R) : ~ a < b -> ltb a b = false.
Proof. intros H. unfold ltb. destruct (Rlt_dec a b); [lra | reflexivity]. Qed.

(** ** Bounding boxes *)

Lemma contains_within_exact (tol : R) box p :
  0 <= tol -> contains box p -> contains_within tol box p.
Proof. unfold contains, contains_within. intros Ht H. lra. Qed.

Section Extents.

Import QliSvgExtentsExecutor.

Lemma new_extent_cur_loc self loc :
  cur_loc (new_extent self loc) = cur_loc self.
Proof. reflexivity. Qed.

(** The four bounds that [new_extent self loc] obeys, then linear
    arithmetic. *)
Ltac new_extent_bounds self loc :=
  unfold contains; simpl;
  pose proof (py_min_bounds (real loc) (real (min_extent self)));
  pose proof (py_min_bounds (imag loc) (imag (min_extent self)));
  pose proof (py_max_bounds (real loc) (real (max_extent self)));
  pose proof (py_max_bounds (imag loc) (imag (max_extent self)));
  lra.

Lemma new_extent_contains_loc self loc :
  contains (get_extents (new_extent self loc)) loc.
Proof. new_extent_bounds self loc. Qed.

Lemma new_extent_grows self loc p :
  contains (get_extents self) p ->
  contains (get_extents (new_extent self loc)) p.
Proof. new_extent_bounds self loc. Qed.

(** One turn of the loop of [doCircle], and its exit. *)
Lemma circle_loop_step fuel r sp saf eaf i self :
  (i < 4)%Z -> IZR (saf + i) < eaf ->
  circle_loop (S fuel) r sp saf eaf i self =
  circle_loop fuel r sp saf eaf (i + 1)
    (new_extent self
       (cadd (csub (rect r (PI * (1 / 2) * IZR (saf + i))) sp) (cur_loc self))).
Proof.
  intros Hi Hlt. simpl.
  rewrite (proj2 (Z.ltb_lt i 4) Hi), (ltb_true _ _ Hlt). reflexivity.
Qed.

Lemma circle_loop_exit fuel r sp saf eaf i self :
  (4 <= i)%Z \/ ~ IZR (saf + i) < eaf ->
  circle_loop fuel r sp saf eaf i self = self.
Proof.
  intros H. destruct fuel as [|fuel]; [reflexivity|]. simpl.
  destruct H as [H | H].
  - rewrite (proj2 (Z.ltb_ge i 4) H). reflexivity.
  - rewrite (ltb_false _ _ H), andb_false_r. reflexivity.
Qed.

(** The loop ends by its own condition: once the fuel covers the distance of
    the counter to 4, more fuel changes nothing. *)
Lemma circle_loop_fuel fuel fuel' r sp saf eaf i self :
  (4 - i < Z.of_nat fuel)%Z -> (4 - i < Z.of_nat fuel')%Z ->
  circle_loop fuel r sp saf eaf i self = circle_loop fuel' r sp saf eaf i self.
Proof.
  revert fuel' i self.
  induction fuel as [|fuel IH]; intros fuel' i self H H'.
  - destruct (Z_lt_le_dec i 4) as [Hi | Hi].
    + lia.
    + rewrite (circle_loop_exit fuel'); [reflexivity | lia].
  - destruct fuel' as [|fuel'].
    + destruct (Z_lt_le_dec i 4) as [Hi | Hi].
      * lia.
      * rewrite circle_loop_exit; [reflexivity | lia].
    + simpl.
      destruct ((i <? 4)%Z && ltb (IZR (saf + i)) eaf) eqn:E; [|reflexivity].
      apply andb_prop in E. destruct E as [Hi _]. apply Z.ltb_lt in Hi.
      apply IH; lia.
Qed.

Lemma circle_loop_cur_loc fuel r sp saf eaf i self :
  cur_loc (circle_loop fuel r sp saf eaf i self) = cur_loc self.
Proof.
  revert i self. induction fuel as [|fuel IH]; intros i self; simpl.
  - reflexivity.
  - destruct ((i <? 4)%Z && ltb (IZR (saf + i)) eaf); [|reflexivity].
    rewrite IH. reflexivity.
Qed.

Lemma circle_loop_grows fuel r sp saf eaf i self p :
  contains (get_extents self) p ->
  contains (get_extents (circle_loop fuel r sp saf eaf i self)) p.
Proof.
  revert i self. induction fuel as [|fuel IH]; intros i self H; simpl.
  - exact H.
  - destruct ((i <? 4)%Z && ltb (IZR (saf + i)) eaf); [|exact H].
    apply IH. apply new_extent_grows. exact H.
Qed.

(** The box after [doCircle] is the box the loop leaves. *)
Lemma doCircle_grows self radius start_angle angle_range p :
  contains (get_extents self) p ->
  contains (get_extents (doCircle self radius start_angle angle_range)) p.
Proof.
  intros H. unfold doCircle.
  destruct (Rlt_dec _ _); cbv zeta; unfold get_extents at 1;
    cbn [min_extent max_extent];
    apply (circle_loop_grows 4), new_extent_grows, H.
Qed.

Lemma doCircle_contains_cur_loc self radius start_angle angle_range :
  let self' := doCircle self radius start_angle angle_range in
  contains (get_extents self') (cur_loc self').
Proof.
  unfold doCircle.
  destruct (Rlt_dec _ _); cbv zeta; unfold get_extents at 1;
    cbn [min_extent max_extent cur_loc];
    apply (circle_loop_grows 4), new_extent_contains_loc.
Qed.

(** Every callback keeps what the box holds. *)
Lemma visit_grows self c p :
  contains (get_extents self) p -> contains (get_extents (visit self c)) p.
Proof.
  intros H. destruct c; simpl; try exact H.
  - apply doCircle_grows, H.
  - apply (new_extent_grows self _ p H).
Qed.

Lemma init_inv : extents_inv init.
Proof. unfold extents_inv, contains; simpl. lra. Qed.

Lemma visit_inv self c : extents_inv self -> extents_inv (visit self c).
Proof.
  intros [H0 Hc]. split; [apply visit_grows, H0|].
  destruct c; simpl; try exact Hc.
  - apply doCircle_contains_cur_loc.
  - apply (new_extent_contains_loc self).
  - exact H0.
Qed.

Lemma execute_inv program self :
  extents_inv self -> extents_inv (execute program self).
Proof.
  revert self. induction program as [|c program IH]; intros self H; simpl.
  - exact H.
  - apply IH, visit_inv, H.
Qed.

End Extents.

Section Arc450.

Import QliSvgExtentsExecutor.

Lemma rect_0 r : rect r (0 * PI / 180) = Cx r 0.
Proof.
  unfold rect. replace (0 * PI / 180) with 0 by lra.
  rewrite cos_0, sin_0. f_equal; lra.
Qed.

Lemma rect_450 r : rect r (0 * PI / 180 + 450 * PI / 180) = Cx 0 r.
Proof.
  unfold rect.
  replace (0 * PI / 180 + 450 * PI / 180) with (PI / 2 + 2 * PI) by lra.
  rewrite cos_plus, sin_plus, cos_2PI, sin_2PI, cos_PI2, sin_PI2.
  f_equal; lra.
Qed.

Lemma rect_quarter_1 r : rect r (PI * (1 / 2) * IZR (0 + 1)) = Cx 0 r.
Proof.
  unfold rect.
  replace (PI * (1 / 2) * IZR (0 + 1)) with (PI / 2) by (simpl; lra).
  rewrite cos_PI2, sin_PI2. f_equal; lra.
Qed.

Lemma rect_quarter_2 r :
  rect r (PI * (1 / 2) * IZR (0 + (1 + 1))) = Cx (- r) 0.
Proof.
  unfold rect.
  replace (PI * (1 / 2) * IZR (0 + (1 + 1))) with PI by (simpl; lra).
  rewrite cos_PI, sin_PI. f_equal; lra.
Qed.

Lemma rect_quarter_3 r :
  rect r (PI * (1 / 2) * IZR (0 + (1 + 1 + 1))) = Cx 0 (- r).
Proof.
  unfold rect.
  replace (PI * (1 / 2) * IZR (0 + (1 + 1 + 1))) with (3 * (PI / 2))
    by (simpl; lra).
  rewrite cos_3PI2, sin_3PI2. f_equal; lra.
Qed.

(** [doCircle] on an arc from 0 over 450 degrees: the end point and the
    points at 90, 180 and 270 degrees are folded into the box, in this
    order, each shifted by [cur_loc - sp]. *)
Lemma doCircle_0_450 self r :
  let cur := cur_loc self in
  let p1 := cadd (csub (Cx 0 r) (Cx r 0)) cur in
  let p2 := cadd (csub (Cx (- r) 0) (Cx r 0)) cur in
  let p3 := cadd (csub (Cx 0 (- r)) (Cx r 0)) cur in
  let next_loc := cadd cur (csub (Cx 0 r) (Cx r 0)) in
  let boxed :=
    new_extent (new_extent (new_extent (new_extent self next_loc) p1) p2) p3 in
  doCircle self r 0 450 =
  mk (axes self) next_loc (min_extent boxed) (max_extent boxed)
     (relative self).
Proof.
  intros cur p1 p2 p3 next_loc boxed.
  unfold doCircle. rewrite rect_0, rect_450.
  assert (Hpi : PI <> 0) by (pose proof PI_RGT_0; lra).
  replace (2 * (0 * PI / 180) / PI) with 0 by (field; exact Hpi).
  replace (2 * (0 * PI / 180 + 450 * PI / 180) / PI) with 5
    by (field; exact Hpi).
  destruct (Rlt_dec 5 0) as [Hlt | _]; [lra|].
  change 0 with (IZR 0) at 3. rewrite ZfloorZ.
  rewrite circle_loop_step; [| lia | simpl; lra].
  rewrite circle_loop_step; [| lia | simpl; lra].
  rewrite circle_loop_step; [| lia | simpl; lra].
  rewrite circle_loop_exit; [| left; lia].
  rewrite rect_quarter_1, rect_quarter_2, rect_quarter_3.
  reflexivity.
Qed.

End Arc450.

Section ExtentClaims.

Import QliSvgExtentsExecutor.

Lemma new_extent_max_real_le self loc c :
  real loc <= c -> real (max_extent self) <= c ->
  real (max_extent (new_extent self loc)) <= c.
Proof. intros Hl Hs. simpl. apply py_max_lub; assumption. Qed.

(** C2.  After every command of every command stream, the box of the extent
    pass contains the origin: [min_extent <= 0 <= max_extent] on both
    components. *)
Theorem extents_contain_origin (program : list command) (n : nat) :
  let self := execute (firstn n program) init in
  (real (min_extent self) <= 0 <= real (max_extent self))
  /\ (imag (min_extent self) <= 0 <= imag (max_extent self)).
Proof.
  intros self.
  destruct (execute_inv (firstn n program) init init_inv) as [H0 _].
  exact H0.
Qed.

(** C10.  After every prefix of every command stream, the current location
    of the extent pass lies in its box:
    [min_extent <= cur_loc <= max_extent] on both components. *)
Theorem extents_contain_cur_loc (program : list command) (n : nat) :
  let self := execute (firstn n program) init in
  (real (min_extent self) <= real (cur_loc self) <= real (max_extent self))
  /\ (imag (min_extent self) <= imag (cur_loc self)
      <= imag (max_extent self)).
Proof.
  intros self.
  destruct (execute_inv (firstn n program) init init_inv) as [_ Hc].
  exact Hc.
Qed.

(** C1, as stated, fails.  On a fresh extent pass the arc of radius 1 from 0
    over 450 degrees leaves a box whose largest x is 0, so the point at 0
    degrees of the circle around the pre-arc location, (1, 0), is a whole
    radius outside it. *)
Lemma arc_450_centred_at_cur_loc_fails :
  let self := execute [] init in
  ~ Forall (contains_within (1 / 2) (get_extents (doCircle self 1 0 450)))
           (cardinal_extrema (cur_loc self) 1).
Proof.
  intros self H. apply Forall_inv in H.
  destruct H as [[_ H] _]. revert H.
  unfold self. simpl execute. rewrite doCircle_0_450.
  unfold get_extents. cbn [snd max_extent real cur_loc init].
  intros H.
  match type of H with
  | _ <= real (max_extent ?boxed) + _ =>
      assert (Hmax : real (max_extent boxed) <= 0)
        by (repeat apply new_extent_max_real_le; simpl; lra)
  end.
  change (real c0) with 0 in H. lra.
Qed.

(** C1, amended.  The arc starts at the current location, so the circle it
    lies on is centred at [cur_loc - rect(r, 0)], the point
    [(cur_loc.real - r, cur_loc.imag)].  After any command stream, the arc
    from 0 over 450 degrees leaves a box that contains the four cardinal
    extrema of that circle, exactly (hence within any tolerance). *)
Theorem arc_450_box_contains_extrema (program : list command) (r : R) :
  let self := execute program init in
  let centre := Cx (real (cur_loc self) - r) (imag (cur_loc self)) in
  Forall (contains (get_extents (doCircle self r 0 450)))
         (cardinal_extrema centre r).
Proof.
  intros self centre.
  destruct (execute_inv program init init_inv) as [_ Hc]. fold self in Hc.
  rewrite doCircle_0_450.
  set (cur := cur_loc self) in *.
  set (next_loc := cadd cur (csub (Cx 0 r) (Cx r 0))).
  set (p1 := cadd (csub (Cx 0 r) (Cx r 0)) cur).
  set (p2 := cadd (csub (Cx (- r) 0) (Cx r 0)) cur).
  set (p3 := cadd (csub (Cx 0 (- r)) (Cx r 0)) cur).
  set (b0 := new_extent self next_loc).
  set (b1 := new_extent b0 p1).
  set (b2 := new_extent b1 p2).
  set (b3 := new_extent b2 p3).
  change (Forall (contains (get_extents b3)) (cardinal_extrema centre r)).
  unfold cardinal_extrema, centre. cbn [real imag].
  repeat apply Forall_cons; try apply Forall_nil.
  - replace (Cx (real cur - r + r) (imag cur)) with cur
      by (destruct cur; cbn [real imag]; f_equal; lra).
    unfold b3, b2, b1, b0. do 4 apply new_extent_grows. exact Hc.
  - replace (Cx (real cur - r) (imag cur + r)) with p1
      by (unfold p1, cadd, csub; cbn [real imag]; f_equal; lra).
    unfold b3, b2. do 2 apply new_extent_grows.
    apply (new_extent_contains_loc b0 p1).
  - replace (Cx (real cur - r - r) (imag cur)) with p2
      by (unfold p2, cadd, csub; cbn [real imag]; f_equal; lra).
    unfold b3. apply new_extent_grows. apply (new_extent_contains_loc b1 p2).
  - replace (Cx (real cur - r) (imag cur - r)) with p3
      by (unfold p3, cadd, csub; cbn [real imag]; f_equal; lra).
    apply (new_extent_contains_loc b2 p3).
Qed.

End ExtentClaims.

(** ** Float clean-up *)

Lemma max_abs_from_bounds (kwds : dict) (a : R) :
  let m :=
    fold_left (fun max_abs kv => Py.max max_abs (Rabs (snd kv))) kwds a in
  a <= m
  /\ (forall kv, In kv kwds -> Rabs (snd kv) <= m)
  /\ (m = a \/ exists kv, In kv kwds /\ Rabs (snd kv) = m).
Proof.
  revert a. induction kwds as [|kv kwds IH]; intros a; simpl.
  - split; [lra|]. split; [intros kv []|]. left. reflexivity.
  - destruct (IH (Py.max a (Rabs (snd kv)))) as (Hge & Hall & Hwit).
    pose proof (py_max_bounds a (Rabs (snd kv))) as [Ha Hv].
    split; [lra|]. split.
    + intros kv' [<- | Hin]; [lra | apply Hall, Hin].
    + destruct Hwit as [Heq | (kv' & Hin & Heq)].
      * assert (E : Py.max a (Rabs (snd kv)) = Rabs (snd kv)
                    \/ Py.max a (Rabs (snd kv)) = a)
          by (unfold Py.max; destruct (Rlt_dec a (Rabs (snd kv))); auto).
        destruct E as [E | E].
        -- right. exists kv. split; [left; reflexivity|].
           rewrite Heq. symmetry. exact E.
        -- left. rewrite Heq. exact E.
      * right. exists kv'. split; [right; exact Hin | exact Heq].
Qed.

Lemma max_abs_of_largest (kwds : dict) (m : R) :
  is_largest_abs kwds m -> max_abs_of kwds = m.
Proof.
  intros [(kv & Hin & Heq) Hle].
  destruct (max_abs_from_bounds kwds 0) as (Hge & Hall & Hwit).
  fold (max_abs_of kwds) in *.
  apply Rle_antisym.
  - destruct Hwit as [H0 | (kv' & Hin' & Heq')].
    + rewrite H0, <- Heq. apply Rabs_pos.
    + rewrite <- Heq'. apply Hle, Hin'.
  - rewrite <- Heq. apply Hall, Hin.
Qed.

Lemma div_EPLSILON (x : R) : x / EPLSILON = x * 1000000.
Proof. unfold EPLSILON. field. Qed.

(** C7.  With the default epsilon, [condition_floats] replaces a component
    by 0 exactly when its absolute value is below 1e-6 times the largest
    absolute value of its group, and keeps it otherwise; a component 1e-9
    next to a component 1 comes out as 0. *)
Theorem condition_floats_zeroes_small :
  (forall (kwds : dict) (m : R),
      is_largest_abs kwds m ->
      condition_floats EPLSILON kwds =
      map (fun kv =>
             (fst kv,
              if Rlt_dec (Rabs (snd kv)) (1 / 1000000 * m) then 0 else snd kv))
          kwds)
  /\ condition_floats EPLSILON [("m00", 1); ("m10", 1 / 1000000000)] =
     [("m00", 1); ("m10", 0)].
Proof.
  assert (General : forall (kwds : dict) (m : R),
      is_largest_abs kwds m ->
      condition_floats EPLSILON kwds =
      map (fun kv =>
             (fst kv,
              if Rlt_dec (Rabs (snd kv)) (1 / 1000000 * m) then 0 else snd kv))
          kwds).
  { intros kwds m Hm. unfold condition_floats.
    rewrite (max_abs_of_largest kwds m Hm).
    apply map_ext. intros kv. rewrite div_EPLSILON.
    destruct (Rlt_dec (Rabs (snd kv) * 1000000) m),
             (Rlt_dec (Rabs (snd kv)) (1 / 1000000 * m));
      try reflexivity; lra. }
  split; [exact General|].
  rewrite (General _ 1).
  - simpl. rewrite (Rabs_pos_eq 1) by lra.
    rewrite (Rabs_pos_eq (1 / 1000000000)) by lra.
    destruct (Rlt_dec 1 (1 / 1000000 * 1)); [lra|].
    destruct (Rlt_dec (1 / 1000000000) (1 / 1000000 * 1)); [reflexivity | lra].
  - split.
    + exists ("m00", 1). split; [left; reflexivity|]. apply Rabs_pos_eq. lra.
    + intros kv [<- | [<- | []]]; simpl; rewrite Rabs_pos_eq; lra.
Qed.

(** A group on which the clean-up acts: 1 stays, 1e-9 goes. *)
Lemma condition_floats_zeroes_small_witness :
  is_largest_abs [("m00", 1); ("m10", 1 / 1000000000)] 1
  /\ condition_floats EPLSILON [("m00", 1); ("m10", 1 / 1000000000)] =
     map (fun kv =>
            (fst kv,
             if Rlt_dec (Rabs (snd kv)) (1 / 1000000 * 1) then 0 else snd kv))
         [("m00", 1); ("m10", 1 / 1000000000)].
Proof.
  assert (H : is_largest_abs [("m00", 1); ("m10", 1 / 1000000000)] 1).
  { split.
    - exists ("m00", 1). split; [left; reflexivity|]. apply Rabs_pos_eq. lra.
    - intros kv [<- | [<- | []]]; simpl; rewrite Rabs_pos_eq; lra. }
  split; [exact H|].
  exact (proj1 condition_floats_zeroes_small _ 1 H).
Defined.

(** ** The document writer *)

Lemma cleaned_keep group v :
  ~ Rabs v / EPLSILON < max_abs_of group -> cleaned group v = v.
Proof.
  intros H. unfold cleaned.
  destruct (Rlt_dec _ _); [contradiction | reflexivity].
Qed.

Lemma cleaned_zero group v :
  Rabs v / EPLSILON < max_abs_of group -> cleaned group v = 0.
Proof.
  intros H. unfold cleaned.
  destruct (Rlt_dec _ _); [reflexivity | contradiction].
Qed.

Lemma svg_header_fields size scale rotation extents :
  let m := svg_header_mat size scale rotation extents in
  let linear :=
    [("m00", a00 m); ("m10", a01 m); ("m01", a10 m); ("m11", a11 m)] in
  let shift := [("translatex", a02 m); ("translatey", a12 m)] in
  svg_header size scale rotation extents =
  [ ("width", real size); ("height", imag size);
    ("m00", cleaned linear (a00 m)); ("m10", cleaned linear (a01 m));
    ("m01", cleaned linear (a10 m)); ("m11", cleaned linear (a11 m));
    ("translatex", cleaned shift (a02 m));
    ("translatey", cleaned shift (a12 m)) ].
Proof. reflexivity. Qed.

Lemma write_elements context (elements : list SvgPath.t) (f : list chunk) :
  fold_left (fun f element => f ++ [SvgPath_svg element context]) elements f =
  f ++ map (fun element => SvgPath_svg element context) elements.
Proof.
  revert f. induction elements as [|e elements IH]; intros f; simpl.
  - rewrite app_nil_r. reflexivity.
  - rewrite IH, <- app_assoc. reflexivity.
Qed.

(** [write] with a box of non-zero width: header, one path per element in
    list order, footer. *)
Lemma SvgPattern_write_ok self f context :
  real (pattern_size self) <> 0 ->
  let params := SvgOutContext.params context in
  let scale := SvgOutputParams.width params / real (pattern_size self) in
  SvgPattern_write self f context =
  Ok (f ++ SVG_HEADER (svg_header (overall_size self params scale)
                         (Cx scale scale) (rect 1 PI)
                         (SvgPattern.extents self))
        :: map (fun element => SvgPath_svg element context)
               (SvgPattern.svg_elements self)
        ++ [SVG_FOOTER]).
Proof.
  intros HS params scale. unfold SvgPattern_write, py_truediv.
  fold (pattern_size self).
  destruct (Req_dec_T (real (pattern_size self)) 0) as [E | _];
    [contradiction|].
  cbn [bind]. rewrite write_elements.
  rewrite <- !app_assoc. reflexivity.
Qed.

(** [write] with a box of zero width: the division raises before anything is
    written. *)
Lemma SvgPattern_write_raises self f context :
  real (pattern_size self) = 0 ->
  SvgPattern_write self f context = Raise ZeroDivisionError.
Proof.
  intros HS. unfold SvgPattern_write, py_truediv.
  fold (pattern_size self).
  destruct (Req_dec_T (real (pattern_size self)) 0) as [_ | N];
    [reflexivity | contradiction].
Qed.

Lemma add_bounding_box_ok self color offset :
  SvgPattern.add_bounding_box self color offset =
  Ok (SvgPattern.mk (SvgPattern.extents self)
        (SvgPattern.svg_elements self
         ++ [bounding_box_path (SvgPattern.extents self) color offset])).
Proof. reflexivity. Qed.

Lemma add_borders_ok pattern context borders :
  add_borders pattern context borders =
  Ok (SvgPattern.mk (SvgPattern.extents pattern)
        (SvgPattern.svg_elements pattern
         ++ map (fun border =>
                   bounding_box_path (SvgPattern.extents pattern)
                     (BorderSpec.color border)
                     (cscale (BorderSpec.border_margin border)
                             (SvgOutContext.bounding_box_delta context)))
                borders)).
Proof.
  revert pattern. induction borders as [|border borders IH]; intros pattern.
  - simpl. rewrite app_nil_r. destruct pattern; reflexivity.
  - cbn [add_borders]. rewrite add_bounding_box_ok. cbn [bind].
    rewrite IH. cbn [SvgPattern.extents SvgPattern.svg_elements map].
    rewrite <- app_assoc. reflexivity.
Qed.

(** [write_svg] with a box of non-zero width. *)
Lemma SvgPattern_write_svg_ok self f params :
  real (pattern_size self) <> 0 ->
  let context := SvgOutContext.init self params in
  let scale := SvgOutputParams.width params / real (pattern_size self) in
  let elements := SvgPattern.svg_elements self ++ border_paths self params in
  SvgPattern_write_svg self f params =
  Ok (SvgPattern.mk (SvgPattern.extents self) elements,
      f ++ SVG_HEADER (svg_header (overall_size self params scale)
                         (Cx scale scale) (rect 1 PI)
                         (SvgPattern.extents self))
        :: map (fun element => SvgPath_svg element context) elements
        ++ [SVG_FOOTER]).
Proof.
  intros HS context scale elements. unfold SvgPattern_write_svg.
  rewrite add_borders_ok. cbn [bind].
  rewrite SvgPattern_write_ok by exact HS.
  reflexivity.
Qed.

(** [write_svg] with a box of zero width. *)
Lemma SvgPattern_write_svg_raises self f params :
  real (pattern_size self) = 0 ->
  SvgPattern_write_svg self f params = Raise ZeroDivisionError.
Proof.
  intros HS. unfold SvgPattern_write_svg.
  rewrite add_borders_ok. cbn [bind].
  rewrite SvgPattern_write_raises by exact HS.
  reflexivity.
Qed.

Lemma svg_header_width size scale rotation extents :
  dict_get "width" (svg_header size scale rotation extents) = Some (real size).
Proof. rewrite svg_header_fields. reflexivity. Qed.

Lemma svg_header_height size scale rotation extents :
  dict_get "height" (svg_header size scale rotation extents)
  = Some (imag size).
Proof. rewrite svg_header_fields. reflexivity. Qed.

(** *** Canvas size *)

(** C9.  For a bounding box of size [S] with [S.x > 0], target width [W] and
    margin [M], the header [write] emits has width [W + 2 * M.x] and height
    [W * S.y / S.x + 2 * M.y]; for the extents (0,0)-(1,1), [W = 100] and a
    zero margin that is 100 by 100. *)
Theorem canvas_size :
  (forall (self : SvgPattern.t) (f : list chunk) (context : SvgOutContext.t),
      let params := SvgOutContext.params context in
      let S := pattern_size self in
      let W := SvgOutputParams.width params in
      let M := MarginSpec.get (SvgOutputParams.margin params) in
      0 < real S ->
      exists fields rest,
        SvgPattern_write self f context = Ok (f ++ SVG_HEADER fields :: rest)
        /\ dict_get "width" fields = Some (W + 2 * real M)
        /\ dict_get "height" fields
           = Some (W * imag S / real S + 2 * imag M))
  /\ (forall (elements : list SvgPath.t) (f : list chunk)
             (oncolor offcolor : string) (line_width : R)
             (borders : list BorderSpec.t),
         let self := SvgPattern.mk (Cx 0 0, Cx 1 1) elements in
         let params :=
           SvgOutputParams.mk oncolor offcolor line_width (MarginSpec.mk 0 0)
                              100 borders in
         exists fields rest,
           SvgPattern_write self f (SvgOutContext.init self params)
           = Ok (f ++ SVG_HEADER fields :: rest)
           /\ dict_get "width" fields = Some 100
           /\ dict_get "height" fields = Some 100).
Proof.
  assert (General :
    forall (self : SvgPattern.t) (f : list chunk) (context : SvgOutContext.t),
      let params := SvgOutContext.params context in
      let S := pattern_size self in
      let W := SvgOutputParams.width params in
      let M := MarginSpec.get (SvgOutputParams.margin params) in
      0 < real S ->
      exists fields rest,
        SvgPattern_write self f context = Ok (f ++ SVG_HEADER fields :: rest)
        /\ dict_get "width" fields = Some (W + 2 * real M)
        /\ dict_get "height" fields
           = Some (W * imag S / real S + 2 * imag M)).
  { intros self f context params S W M HS.
    assert (HS' : real (pattern_size self) <> 0) by (fold S; lra).
    rewrite (SvgPattern_write_ok self f context HS').
    eexists. eexists. split; [reflexivity|].
    rewrite svg_header_width, svg_header_height.
    unfold overall_size, cadd, cscale. cbn [real imag].
    fold params S W M. split; f_equal.
    field. fold S in HS'. exact HS'. }
  split; [exact General|].
  intros elements f oncolor offcolor line_width borders self params.
  destruct (General self f (SvgOutContext.init self params))
    as (fields & rest & Hw & Hwidth & Hheight).
  { simpl. lra. }
  exists fields, rest. split; [exact Hw|].
  rewrite Hwidth, Hheight. simpl. split; f_equal; field.
Qed.

(** The unit square at target width 100 without margin. *)
Lemma canvas_size_witness :
  let self := SvgPattern.mk (Cx 0 0, Cx 1 1) [] in
  let context := SvgOutContext.init self
    (SvgOutputParams.mk "black" "red" 1 (MarginSpec.mk 0 0) 100 []) in
  0 < real (pattern_size self)
  /\ exists fields rest,
       SvgPattern_write self [] context = Ok ([] ++ SVG_HEADER fields :: rest)
       /\ dict_get "width" fields = Some (100 + 2 * 0)
       /\ dict_get "height" fields = Some (100 * (1 - 0) / (1 - 0) + 2 * 0).
Proof.
  assert (H : 0 < real (pattern_size (SvgPattern.mk (Cx 0 0, Cx 1 1) [])))
    by (simpl; lra).
  split; [exact H|].
  exact (proj1 canvas_size (SvgPattern.mk (Cx 0 0, Cx 1 1) []) []
           (SvgOutContext.init (SvgPattern.mk (Cx 0 0, Cx 1 1) [])
              (SvgOutputParams.mk "black" "red" 1 (MarginSpec.mk 0 0) 100 []))
           H).
Defined.

(** *** Degenerate boxes *)

(** C6, as stated, fails.  A flat, horizontal pattern (extents (0,0)-(1,0),
    so [S.y = 0]) is written without any failure being raised. *)
Lemma degenerate_box_not_reported :
  let self := SvgPattern.mk (Cx 0 0, Cx 1 0) [] in
  imag (pattern_size self) = 0
  /\ ~ raises (SvgPattern_write_svg self [] SvgOutputParams.default).
Proof.
  cbv zeta. split; [simpl; lra|].
  intros [e He]. revert He.
  rewrite SvgPattern_write_svg_ok by (simpl; lra).
  discriminate.
Qed.

(** C6, amended.  There is no guard.  When [S.x = 0] the float division in
    [write] raises [ZeroDivisionError], before anything is written; when
    [S.x <> 0] and [S.y = 0] the document is written as usual, its canvas
    being [2 * M.y] high. *)
Theorem degenerate_box_behaviour
    (self : SvgPattern.t) (f : list chunk) (params : SvgOutputParams.t) :
  let S := pattern_size self in
  let M := MarginSpec.get (SvgOutputParams.margin params) in
  (real S = 0 ->
   SvgPattern_write_svg self f params = Raise ZeroDivisionError)
  /\ (real S <> 0 -> imag S = 0 ->
      exists pattern fields rest,
        SvgPattern_write_svg self f params
        = Ok (pattern, f ++ SVG_HEADER fields :: rest)
        /\ dict_get "width" fields
           = Some (SvgOutputParams.width params + 2 * real M)
        /\ dict_get "height" fields = Some (2 * imag M)).
Proof.
  intros S M. split.
  - intros HS. apply SvgPattern_write_svg_raises. exact HS.
  - intros HS Hy.
    rewrite (SvgPattern_write_svg_ok self f params HS).
    eexists. eexists. eexists. split; [reflexivity|].
    rewrite svg_header_width, svg_header_height.
    unfold overall_size, cadd, cscale. cbn [real imag].
    fold S M. rewrite Hy. split; f_equal. lra.
Qed.

(** A point pattern raises; a flat, horizontal one is written. *)
Lemma degenerate_box_behaviour_witness :
  SvgPattern_write_svg (SvgPattern.mk (Cx 0 0, Cx 0 0) []) []
    SvgOutputParams.default = Raise ZeroDivisionError
  /\ exists pattern fields rest,
       SvgPattern_write_svg (SvgPattern.mk (Cx 0 0, Cx 1 0) []) []
         SvgOutputParams.default
       = Ok (pattern, [] ++ SVG_HEADER fields :: rest)
       /\ dict_get "width" fields = Some (700 + 2 * 50)
       /\ dict_get "height" fields = Some (2 * 50).
Proof.
  split.
  - apply (proj1 (degenerate_box_behaviour
                    (SvgPattern.mk (Cx 0 0, Cx 0 0) []) []
                    SvgOutputParams.default)).
    simpl. lra.
  - apply (proj2 (degenerate_box_behaviour
                    (SvgPattern.mk (Cx 0 0, Cx 1 0) []) []
                    SvgOutputParams.default)).
    + simpl. lra.
    + simpl. lra.
Defined.

(** *** The fitting transform *)

(** The product of two matrices given by their entries. *)
Lemma matmul_entries a b c d e f g h i a' b' c' d' e' f' g' h' i' :
  Mat3 a b c d e f g h i @ Mat3 a' b' c' d' e' f' g' h' i' =
  Mat3 (a * a' + b * d' + c * g') (a * b' + b * e' + c * h')
       (a * c' + b * f' + c * i')
       (d * a' + e * d' + f * g') (d * b' + e * e' + f * h')
       (d * c' + e * f' + f * i')
       (g * a' + h * d' + i * g') (g * b' + h * e' + i * h')
       (g * c' + h * f' + i * i').
Proof. reflexivity. Qed.

Lemma mat3_eq a b c d e f g h i a' b' c' d' e' f' g' h' i' :
  a = a' -> b = b' -> c = c' -> d = d' -> e = e' -> f = f' ->
  g = g' -> h = h' -> i = i' ->
  Mat3 a b c d e f g h i = Mat3 a' b' c' d' e' f' g' h' i'.
Proof. intros; subst; reflexivity. Qed.

(** The matrix of [svg_header] for the half turn [rect(1, pi)]: the scale on
    the diagonal, with the sign of the vertical one changed, and the shift
    that takes the centre of the pattern to the centre of the canvas. *)
Lemma svg_header_mat_half_turn size scale extents :
  svg_header_mat size scale (Cx (-1) 0) extents =
  Mat3 (real scale) 0
       (real size / 2 - real scale * real (centre_of extents))
       0 (- imag scale)
       (imag size / 2 + imag scale * imag (centre_of extents))
       0 0 1.
Proof.
  unfold svg_header_mat. fold (centre_of extents).
  unfold mat_trans, mat_rot, mat_scale, cdiv, cneg. cbn [real imag].
  rewrite !matmul_entries.
  apply mat3_eq; lra.
Qed.

Lemma rect_1_PI : rect 1 PI = Cx (-1) 0.
Proof. unfold rect. rewrite cos_PI, sin_PI. f_equal; lra. Qed.

Lemma complex_eq (a b : complex) :
  real a = real b -> imag a = imag b -> a = b.
Proof. destruct a, b; simpl; intros -> ->; reflexivity. Qed.

(** C5, as stated, fails.  For the extents (0,0)-(1,1), target width 100
    and no margin, the matrix of [write] sends the corner (1,1) to (100,0);
    the composition with a mirror that flips the vertical axis sends it to
    (0,100). *)
Lemma stated_transform_fails :
  let extents := (Cx 0 0, Cx 1 1) in
  let size := Cx 100 100 in
  apply_mat (svg_header_mat size (Cx 100 100) (rect 1 PI) extents) (Cx 1 1)
  <> stated_transform extents 100 size (Cx 1 1).
Proof.
  cbv zeta. rewrite rect_1_PI, svg_header_mat_half_turn. intros H.
  apply (f_equal real) in H. revert H.
  unfold apply_mat, stated_transform, translate, scale_uniform,
    mirror_vertical, rotate_180, centre_of, cadd, csub, cneg, cdiv, cscale.
  cbn [real imag fst snd a00 a01 a02 a10 a11 a12].
  intros H. lra.
Qed.

(** C5, amended.  When [S.x <> 0], [write] emits the header of the matrix
    [svg_header_mat], whose affine map is the composition of (a) the
    translation of the pattern's centre to the origin, (b) a half turn,
    (c) a mirror scale by [(-1, 1)], which changes the sign of the horizontal
    coordinate, (d) the uniform scale by [W / S.x] and (e) the translation to
    the centre of the canvas.  The matrix is the one before the float
    clean-up of [svg_header]. *)
Theorem fitting_transform_composition
    (self : SvgPattern.t) (f : list chunk) (context : SvgOutContext.t) :
  let params := SvgOutContext.params context in
  let extents := SvgPattern.extents self in
  let scale := SvgOutputParams.width params / real (pattern_size self) in
  let size := overall_size self params scale in
  real (pattern_size self) <> 0 ->
  (exists rest,
      SvgPattern_write self f context =
      Ok (f ++ SVG_HEADER (svg_header size (Cx scale scale) (rect 1 PI) extents)
            :: rest))
  /\ (forall p : complex,
         apply_mat (svg_header_mat size (Cx scale scale) (rect 1 PI) extents) p
         = fitting_transform extents scale size p).
Proof.
  intros params extents scale size HS. split.
  - rewrite (SvgPattern_write_ok self f context HS). eexists. reflexivity.
  - intros p. rewrite rect_1_PI, svg_header_mat_half_turn.
    unfold apply_mat, fitting_transform, translate, scale_uniform,
      mirror_horizontal, rotate_180, cadd, cneg, cscale.
    cbn [real imag a00 a01 a02 a10 a11 a12].
    apply complex_eq; cbn [real imag]; unfold centre_of, cadd, csub, cdiv;
      cbn [real imag]; field.
Qed.

(** The unit square at target width 100 without margin. *)
Lemma fitting_transform_composition_witness :
  let self := SvgPattern.mk (Cx 0 0, Cx 1 1) [] in
  let params := SvgOutputParams.mk "black" "red" 1 (MarginSpec.mk 0 0) 100 [] in
  let context := SvgOutContext.init self params in
  let scale := 100 / real (pattern_size self) in
  let size := overall_size self params scale in
  real (pattern_size self) <> 0
  /\ (exists rest,
         SvgPattern_write self [] context =
         Ok ([] ++ SVG_HEADER (svg_header size (Cx scale scale) (rect 1 PI)
                                 (SvgPattern.extents self))
               :: rest))
  /\ (forall p : complex,
         apply_mat (svg_header_mat size (Cx scale scale) (rect 1 PI)
                      (SvgPattern.extents self)) p
         = fitting_transform (SvgPattern.extents self) scale size p).
Proof.
  cbv zeta.
  assert (H : real (pattern_size (SvgPattern.mk (Cx 0 0, Cx 1 1) [])) <> 0)
    by (simpl; lra).
  split; [exact H|].
  exact (fitting_transform_composition (SvgPattern.mk (Cx 0 0, Cx 1 1) []) []
           (SvgOutContext.init (SvgPattern.mk (Cx 0 0, Cx 1 1) [])
              (SvgOutputParams.mk "black" "red" 1 (MarginSpec.mk 0 0) 100 []))
           H).
Defined.

(** *** Borders *)

(** C4, as stated, fails.  With one stroke in the pattern and the default
    blue border, the first element after [write_svg] is not the border. *)
Lemma borders_first_fails :
  let stroke := SvgPath.mk true [Move c0; Line c0 (Cx 1 1)] None in
  let self := SvgPattern.mk (c0, Cx 1 1) [stroke] in
  ~ exists pattern f border rest,
      SvgPattern_write_svg self [] SvgOutputParams.default = Ok (pattern, f)
      /\ SvgPattern.svg_elements pattern = border :: rest
      /\ SvgPath.alternate_color border = Some "blue".
Proof.
  cbv zeta. intros (pattern & f & border & rest & Hw & Hel & Hcol).
  rewrite SvgPattern_write_svg_ok in Hw by (simpl; lra).
  injection Hw as Hp _. subst pattern.
  cbn [SvgPattern.svg_elements app] in Hel.
  injection Hel as Hb _. subst border.
  discriminate Hcol.
Qed.

(** C4, amended.  [write_svg] appends one border path per border spec, in
    list order, behind the elements already in the pattern; when [S.x <> 0]
    the document holds one path per element in that order, so every border
    path comes after every stroke path. *)
Theorem borders_last
    (self : SvgPattern.t) (f : list chunk) (params : SvgOutputParams.t) :
  let context := SvgOutContext.init self params in
  let strokes := SvgPattern.svg_elements self in
  let borders := border_paths self params in
  real (pattern_size self) <> 0 ->
  exists pattern header,
    SvgPattern_write_svg self f params
    = Ok (pattern,
          f ++ SVG_HEADER header
            :: map (fun element => SvgPath_svg element context) strokes
            ++ map (fun element => SvgPath_svg element context) borders
            ++ [SVG_FOOTER])
    /\ SvgPattern.svg_elements pattern = strokes ++ borders
    /\ List.length borders = List.length (SvgOutputParams.borders params)
    /\ Forall (fun border => SvgPath.needle_state border = false) borders.
Proof.
  intros context strokes borders HS.
  rewrite (SvgPattern_write_svg_ok self f params HS).
  eexists. eexists. split; [|split; [|split]].
  - rewrite map_app, <- app_assoc. reflexivity.
  - reflexivity.
  - unfold borders, border_paths. apply length_map.
  - unfold borders, border_paths. apply Forall_forall.
    intros border Hin. apply in_map_iff in Hin.
    destruct Hin as (spec & <- & _). reflexivity.
Qed.

(** One stroke and the default border. *)
Lemma borders_last_witness :
  let stroke := SvgPath.mk true [Move c0; Line c0 (Cx 1 1)] None in
  let self := SvgPattern.mk (c0, Cx 1 1) [stroke] in
  let context := SvgOutContext.init self SvgOutputParams.default in
  let borders := border_paths self SvgOutputParams.default in
  real (pattern_size self) <> 0
  /\ exists pattern header,
       SvgPattern_write_svg self [] SvgOutputParams.default
       = Ok (pattern,
             [] ++ SVG_HEADER header
               :: map (fun element => SvgPath_svg element context) [stroke]
               ++ map (fun element => SvgPath_svg element context) borders
               ++ [SVG_FOOTER])
       /\ SvgPattern.svg_elements pattern = [stroke] ++ borders
       /\ List.length borders = List.length [BorderSpec.mk "blue" 1]
       /\ Forall (fun border => SvgPath.needle_state border = false) borders.
Proof.
  cbv zeta.
  assert (H : real (pattern_size
                      (SvgPattern.mk (c0, Cx 1 1)
                         [SvgPath.mk true [Move c0; Line c0 (Cx 1 1)] None]))
              <> 0) by (simpl; lra).
  split; [exact H|].
  exact (borders_last
           (SvgPattern.mk (c0, Cx 1 1)
              [SvgPath.mk true [Move c0; Line c0 (Cx 1 1)] None])
           [] SvgOutputParams.default H).
Defined.

(** ** The path builder *)

Section PathBuilder.

Import QliSvgExecutor.

Lemma SvgPath_init_ok needle_state first rest alternate_color :
  SvgPath.init needle_state (first :: rest) alternate_color
  = Ok (materialized needle_state first rest alternate_color).
Proof.
  unfold SvgPath.init, materialized. destruct (is_Move first); reflexivity.
Qed.

Lemma materialized_begins needle_state first rest alternate_color :
  begins_with_Move (materialized needle_state first rest alternate_color)
  = true.
Proof.
  unfold begins_with_Move, materialized; simpl.
  destruct (is_Move first) eqn:E; simpl; [exact E | reflexivity].
Qed.

(** [end_path] never raises.  An empty open path leaves the pattern alone;
    a non-empty one is pushed, tagged with the needle state at that time. *)
Lemma end_path_empty self :
  svg_current_path self = [] ->
  end_path self = Ok (set_svg_current_path self []).
Proof. intros E. unfold end_path. rewrite E. reflexivity. Qed.

Lemma end_path_push self first rest :
  svg_current_path self = first :: rest ->
  end_path self =
  Ok (set_svg_current_path
        (set_pattern self
           (SvgPattern.append (pattern self)
              (materialized (needle_on self) first rest None)))
        []).
Proof.
  intros E. unfold end_path. rewrite E.
  cbn [List.length Nat.eqb negb]. rewrite SvgPath_init_ok. reflexivity.
Qed.

(** What [end_path] does to the pushed segments. *)
Lemma end_path_segments self :
  exists self',
    end_path self = Ok self'
    /\ svg_current_path self' = []
    /\ needle_on self' = needle_on self
    /\ ((svg_current_path self = [] /\ segments self' = segments self)
        \/ exists first rest,
             svg_current_path self = first :: rest
             /\ segments self' =
                segments self
                ++ [materialized (needle_on self) first rest None]).
Proof.
  destruct (svg_current_path self) as [|first rest] eqn:E.
  - rewrite (end_path_empty self E). eexists. split; [reflexivity|].
    split; [reflexivity|]. split; [reflexivity|]. left. split; reflexivity.
  - rewrite (end_path_push self first rest E). eexists.
    split; [reflexivity|]. split; [reflexivity|]. split; [reflexivity|].
    right. exists first, rest. split; reflexivity.
Qed.

(** One callback: it never raises, and it pushes a segment only if it is one
    of the flushing callbacks and the open path is non-empty. *)
Lemma visit_segments self c :
  exists self',
    visit self c = Ok self'
    /\ (segments self' = segments self
        \/ (flushes self c = true
            /\ exists first rest,
                 svg_current_path self = first :: rest
                 /\ segments self' =
                    segments self
                    ++ [materialized (needle_on self) first rest None])).
Proof.
  destruct c; cbn [visit];
    try (eexists; split; [reflexivity | left; reflexivity]).
  - (* VectorSequenceEnd *)
    unfold doVectorSequenceEnd.
    destruct (end_path_segments self) as (s & -> & _ & _ & H). cbn [bind].
    eexists. split; [reflexivity|].
    destruct H as [[_ H] | H]; [left; exact H|].
    right. split; [reflexivity | exact H].
  - (* NeedleOff *)
    unfold doNeedleOff, set_needle.
    destruct (needle_on self) eqn:N; cbn [Bool.eqb negb bind].
    + destruct (end_path_segments self) as (s & -> & _ & _ & H). cbn [bind].
      eexists. split; [reflexivity|]. rewrite N in H.
      destruct H as [[_ H] | H]; [left; exact H|].
      right. split; [exact N | exact H].
    + eexists. split; [reflexivity | left; reflexivity].
  - (* NeedleOn *)
    unfold doNeedleOn, set_needle.
    destruct (needle_on self) eqn:N; cbn [Bool.eqb negb bind].
    + eexists. split; [reflexivity | left; reflexivity].
    + destruct (end_path_segments self) as (s & -> & _ & _ & H). cbn [bind].
      eexists. split; [reflexivity|]. rewrite N in H.
      destruct H as [[_ H] | H]; [left; exact H|].
      right. split; [cbn [flushes]; rewrite N; reflexivity | exact H].
  - (* End *)
    unfold doEnd.
    destruct (end_path_segments self) as (s & -> & _ & _ & H).
    eexists. split; [reflexivity|].
    destruct H as [[_ H] | H]; [left; exact H|].
    right. split; [reflexivity | exact H].
Qed.

Lemma visit_begins self c self' :
  visit self c = Ok self' ->
  Forall (fun p => begins_with_Move p = true) (segments self) ->
  Forall (fun p => begins_with_Move p = true) (segments self').
Proof.
  intros Hv Hall.
  destruct (visit_segments self c) as (s & Hs & H).
  rewrite Hv in Hs. injection Hs as <-.
  destruct H as [-> | (_ & first & rest & _ & ->)]; [exact Hall|].
  apply Forall_app. split; [exact Hall|].
  constructor; [apply materialized_begins | constructor].
Qed.

Lemma execute_begins program self :
  Forall (fun p => begins_with_Move p = true) (segments self) ->
  exists self',
    execute program self = Ok self'
    /\ Forall (fun p => begins_with_Move p = true) (segments self').
Proof.
  revert self. induction program as [|c program IH]; intros self Hall.
  - exists self. split; [reflexivity | exact Hall].
  - cbn [execute].
    destruct (visit_segments self c) as (s & Hs & _).
    rewrite Hs. cbn [bind]. apply IH.
    apply (visit_begins self c s Hs Hall).
Qed.

End PathBuilder.

Section PathBuilderClaims.

Import QliSvgExecutor.

Lemma cadd_c0_r (p : complex) : cadd p c0 = p.
Proof. apply complex_eq; simpl; lra. Qed.

(** C8.  Every segment that reaches the pattern begins with a [Move]:
    [SvgPath.__init__] keeps a path that starts with a [Move] and otherwise
    puts a [Move] to the start of the first segment in front; a callback
    pushes a segment only if the open path is non-empty and the callback
    ends a sequence, ends the program or changes the needle state; [run]
    never raises, pushes the open path, if non-empty, once more when the
    program is over, and leaves only segments that begin with a [Move], to
    which [get_svg_patttern] adds none; the borders begin with a [Move]
    too. *)
Theorem segments_begin_with_Move :
  (forall needle_state first rest alternate_color,
      SvgPath.init needle_state (first :: rest) alternate_color
      = Ok (SvgPath.mk needle_state
              (if is_Move first then first :: rest
               else Move (segment_start first) :: first :: rest)
              alternate_color))
  /\ (forall (self : t) (c : command),
         exists self',
           visit self c = Ok self'
           /\ (segments self' = segments self
               \/ (flushes self c = true
                   /\ exists first rest,
                        svg_current_path self = first :: rest
                        /\ segments self' =
                           segments self
                           ++ [materialized (needle_on self) first rest
                                 None])))
  /\ (forall program : list command,
         exists executed self',
           execute program (init program) = Ok executed
           /\ run program (init program) = Ok self'
           /\ (segments self' = segments executed
               \/ exists first rest,
                    svg_current_path executed = first :: rest
                    /\ segments self' =
                       segments executed
                       ++ [materialized (needle_on executed) first rest None])
           /\ Forall (fun p => begins_with_Move p = true) (segments self')
           /\ get_svg_patttern self' =
              Ok (set_svg_current_path self' [], pattern self'))
  /\ (forall (pattern : SvgPattern.t) (color : string) (offset : complex),
         exists border,
           SvgPattern.add_bounding_box pattern color offset
           = Ok (SvgPattern.append pattern border)
           /\ begins_with_Move border = true).
Proof.
  split; [|split; [|split]].
  - intros. apply SvgPath_init_ok.
  - apply visit_segments.
  - intros program.
    destruct (execute_begins program (init program)) as (executed & He & Hall).
    { constructor. }
    destruct (end_path_segments executed) as (self' & Hp & Hopen & _ & H).
    exists executed, self'. split; [exact He|].
    split; [unfold run; rewrite He; exact Hp|].
    split; [|split].
    + destruct H as [[_ H] | H]; [left; exact H | right; exact H].
    + destruct H as [[_ ->] | (first & rest & _ & ->)]; [exact Hall|].
      apply Forall_app. split; [exact Hall|].
      constructor; [apply materialized_begins | constructor].
    + unfold get_svg_patttern. rewrite (end_path_empty self' Hopen).
      reflexivity.
  - intros pattern color offset. eexists. split; reflexivity.
Qed.

(** The callbacks on a state given by its fields. *)
Lemma visit_VectorPosition ax n open found s cur pat rel d1 d2 :
  visit (mk ax n open found s cur pat rel) (VectorPosition d1 d2) =
  let next_loc :=
    cadd (Cx (pair_get (d1, d2) (fst ax)) (pair_get (d1, d2) (snd ax))) rel in
  Ok (mk ax n (open ++ [Line cur next_loc]) found s next_loc pat rel).
Proof. reflexivity. Qed.

Lemma visit_Needle_flush ax n first rest found s cur pat rel :
  visit (mk ax n (first :: rest) found s cur pat rel)
        (if n then NeedleOff else NeedleOn) =
  Ok (mk ax (negb n) [] found s cur
        (SvgPattern.append pat (materialized n first rest None)) rel).
Proof.
  destruct n; cbn [visit]; unfold doNeedleOff, doNeedleOn, set_needle;
    cbn [needle_on Bool.eqb negb];
    rewrite (end_path_push _ first rest) by reflexivity; reflexivity.
Qed.

Lemma visit_End_flush ax n first rest found s cur pat rel :
  visit (mk ax n (first :: rest) found s cur pat rel) End =
  Ok (mk ax n [] found s cur
        (SvgPattern.append pat (materialized n first rest None)) rel).
Proof.
  cbn [visit]. unfold doEnd.
  rewrite (end_path_push _ first rest) by reflexivity. reflexivity.
Qed.

Lemma visit_VectorMotion ax n open found s cur pat rel ax' :
  visit (mk ax n open found s cur pat rel) (VectorMotion ax') =
  Ok (mk ax' n open found s cur pat rel).
Proof. reflexivity. Qed.

Lemma visit_VectorSequenceEnd_flush ax n first rest found s cur pat rel :
  visit (mk ax n (first :: rest) found s cur pat rel) VectorSequenceEnd =
  Ok (mk ax n [] found s cur
        (SvgPattern.append pat (materialized n first rest None)) cur).
Proof.
  cbn [visit]. unfold doVectorSequenceEnd.
  rewrite (end_path_push _ first rest) by reflexivity. reflexivity.
Qed.

Lemma visit_End_empty ax n found s cur pat rel :
  visit (mk ax n [] found s cur pat rel) End =
  Ok (mk ax n [] found s cur pat rel).
Proof. reflexivity. Qed.

Lemma execute_cons c program self :
  execute (c :: program) self =
  (self' <- visit self c ;; execute program self').
Proof. reflexivity. Qed.

(** The run of the round-trip stream from a fresh executor, whatever the
    extent pass has found. *)
Lemma toggle_stream_run (a1 a2 b1 b2 c1 c2 : R)
    (found : QliSvgExtentsExecutor.t) (box : complex * complex) :
  let A := Cx a1 a2 in
  let B := Cx b1 b2 in
  let C := Cx c1 c2 in
  run (toggle_stream a1 a2 b1 b2 c1 c2)
      (mk (I0, I1) true [] found c0 c0 (SvgPattern.init box) c0)
  = Ok (mk (I0, I1) true [] found c0 C
          (SvgPattern.mk box
             [ SvgPath.mk true [Move c0; Line c0 A] None;
               SvgPath.mk false [Move A; Line A B] None;
               SvgPath.mk true [Move B; Line B C] None ])
          c0).
Proof.
  intros A B C. unfold toggle_stream, run.
  rewrite execute_cons, visit_VectorPosition.
  cbv zeta. cbn [bind pair_get fst snd app]. rewrite cadd_c0_r. fold A.
  rewrite execute_cons, (visit_Needle_flush _ true). cbn [bind negb].
  rewrite execute_cons, visit_VectorPosition.
  cbv zeta. cbn [bind pair_get fst snd app]. rewrite cadd_c0_r. fold B.
  rewrite execute_cons, (visit_Needle_flush _ false). cbn [bind negb].
  rewrite execute_cons, visit_VectorPosition.
  cbv zeta. cbn [bind pair_get fst snd app]. rewrite cadd_c0_r. fold C.
  rewrite execute_cons, visit_End_flush. cbn [bind execute].
  rewrite end_path_empty by reflexivity.
  reflexivity.
Qed.

(** C3, as stated, fails.  For A = (1,0), B = (2,0) and C = (3,0) the path
    builder does not end with two segments. *)
Lemma toggle_stream_not_two_segments :
  let program := toggle_stream 1 0 2 0 3 0 in
  ~ exists self',
      run program (init program) = Ok self'
      /\ List.length (segments self') = 2%nat.
Proof.
  cbv zeta. intros (self' & Hrun & Hlen). revert Hrun.
  unfold init. rewrite toggle_stream_run.
  intros Hrun. injection Hrun as Hrun. subst self'.
  discriminate Hlen.
Qed.

(** C3, amended.  The stream [Position A, ToolOff, Position B, ToolOn,
    Position C, End] yields three segments, split at the two toggles: the
    line from the origin to A tagged tool-on, the line from A to B tagged
    tool-off and the line from B to C tagged tool-on, each behind a [Move]
    to the start of its line. *)
Theorem toggle_stream_segments (a1 a2 b1 b2 c1 c2 : R) :
  let program := toggle_stream a1 a2 b1 b2 c1 c2 in
  let A := Cx a1 a2 in
  let B := Cx b1 b2 in
  let C := Cx c1 c2 in
  exists self',
    run program (init program) = Ok self'
    /\ segments self' =
       [ SvgPath.mk true [Move c0; Line c0 A] None;
         SvgPath.mk false [Move A; Line A B] None;
         SvgPath.mk true [Move B; Line B C] None ].
Proof.
  intros program A B C. unfold program, init.
  rewrite toggle_stream_run.
  eexists. split; reflexivity.
Qed.

End PathBuilderClaims.

(** ** The scenario of the specification

    The stream [corner_stream] rendered with the default parameters: the
    extents are (0,0)-(10,10), the canvas is 800 by 800, and the document
    holds the stroke in the on-colour followed by the blue border. *)

Section Examples.

Example extents_of_corner :
  QliSvgExtentsExecutor.get_extents
    (QliSvgExtentsExecutor.execute corner_stream QliSvgExtentsExecutor.init)
  = (Cx 0 0, Cx 10 10).
Proof.
  unfold QliSvgExtentsExecutor.get_extents, QliSvgExtentsExecutor.execute.
  simpl.
  replace (0 + 0) with 0 by lra. replace (10 + 0) with 10 by lra.
  rewrite !(py_min_l 0 0), !(py_max_l 0 0) by lra.
  rewrite !(py_min_r 10 0), !(py_max_l 10 0) by lra.
  rewrite ?(py_max_l 10 10) by lra.
  reflexivity.
Qed.

Import QliSvgExecutor.

Lemma run_corner_stream found box :
  run corner_stream (mk (I0, I1) true [] found c0 c0 (SvgPattern.init box) c0)
  = Ok (mk (I0, I1) true [] found c0 (Cx 10 10)
          (SvgPattern.mk box
             [ SvgPath.mk true
                 [ Move c0; Line c0 (Cx 0 0); Line (Cx 0 0) (Cx 10 0);
                   Line (Cx 10 0) (Cx 10 10) ] None ])
          (Cx 10 10)).
Proof.
  unfold corner_stream, run.
  rewrite execute_cons, visit_VectorMotion. cbn [bind].
  rewrite execute_cons, visit_VectorPosition.
  cbv zeta. cbn [bind pair_get fst snd app]. rewrite cadd_c0_r.
  rewrite execute_cons, visit_VectorPosition.
  cbv zeta. cbn [bind pair_get fst snd app]. rewrite cadd_c0_r.
  rewrite execute_cons, visit_VectorPosition.
  cbv zeta. cbn [bind pair_get fst snd app]. rewrite cadd_c0_r.
  rewrite execute_cons, visit_VectorSequenceEnd_flush. cbn [bind].
  rewrite execute_cons, visit_End_empty. cbn [bind execute].
  rewrite end_path_empty by reflexivity.
  reflexivity.
Qed.

Lemma context_of_corner elements :
  SvgOutContext.init (SvgPattern.mk (Cx 0 0, Cx 10 10) elements)
    SvgOutputParams.default
  = SvgOutContext.mk SvgOutputParams.default (Cx 1 1) 1.
Proof.
  unfold SvgOutContext.init. cbn [SvgPattern.extents fst snd csub real imag].
  rewrite (Zceil_eq 1 ((10 - 0 + (10 - 0)) * (2 / 100))) by (simpl; lra).
  rewrite (Zceil_eq 1 ((10 - 0 + (10 - 0)) * (1 / 1000))) by (simpl; lra).
  unfold cscale.
  cbn [real imag SvgOutputParams.line_width SvgOutputParams.default].
  f_equal; [f_equal|]; lra.
Qed.

Lemma max_abs_of_linear :
  max_abs_of [("m00", 70); ("m10", 0); ("m01", 0); ("m11", -70)] = 70.
Proof.
  apply max_abs_of_largest. split.
  - exists ("m00", 70). split; [left; reflexivity|]. apply Rabs_pos_eq. lra.
  - intros kv [<- | [<- | [<- | [<- | []]]]]; cbn [snd];
      unfold Rabs; destruct (Rcase_abs _); lra.
Qed.

Lemma max_abs_of_shift :
  max_abs_of [("translatex", 50); ("translatey", 750)] = 750.
Proof.
  apply max_abs_of_largest. split.
  - exists ("translatey", 750). split; [right; left; reflexivity|].
    apply Rabs_pos_eq. lra.
  - intros kv [<- | [<- | []]]; cbn [snd];
      unfold Rabs; destruct (Rcase_abs _); lra.
Qed.

Lemma header_of_corner :
  svg_header (Cx 800 800) (Cx 70 70) (rect 1 PI) (Cx 0 0, Cx 10 10) =
  [ ("width", 800); ("height", 800);
    ("m00", 70); ("m10", 0); ("m01", 0); ("m11", -70);
    ("translatex", 50); ("translatey", 750) ].
Proof.
  rewrite svg_header_fields, rect_1_PI, svg_header_mat_half_turn.
  cbv zeta. unfold centre_of, cadd, csub, cdiv.
  cbn [real imag fst snd a00 a01 a02 a10 a11 a12].
  replace (800 / 2 - 70 * (0 + (10 - 0) / 2)) with 50 by lra.
  replace (800 / 2 + 70 * (0 + (10 - 0) / 2)) with 750 by lra.
  replace (- (70)) with (-70) by lra.
  assert (Side : forall group v m,
             max_abs_of group = m ->
             (Rabs v * 1000000 < m -> cleaned group v = 0)
             /\ (~ Rabs v * 1000000 < m -> cleaned group v = v)).
  { intros group v m <-. rewrite <- div_EPLSILON.
    split; [apply cleaned_zero | apply cleaned_keep]. }
  rewrite (proj2 (Side _ 70 _ max_abs_of_linear)),
          (proj1 (Side _ 0 _ max_abs_of_linear)),
          (proj2 (Side _ (-70) _ max_abs_of_linear)),
          (proj2 (Side _ 50 _ max_abs_of_shift)),
          (proj2 (Side _ 750 _ max_abs_of_shift));
    [reflexivity | ..];
    unfold Rabs; destruct (Rcase_abs _); lra.
Qed.

Example render_corner_stream :
  render corner_stream SvgOutputParams.default =
  Ok [ SVG_HEADER
         [ ("width", 800); ("height", 800);
           ("m00", 70); ("m10", 0); ("m01", 0); ("m11", -70);
           ("translatex", 50); ("translatey", 750) ];
       SVG_PATH [ Move c0; Line c0 (Cx 0 0); Line (Cx 0 0) (Cx 10 0);
                  Line (Cx 10 0) (Cx 10 10) ] "black" 1;
       SVG_PATH [ Move (Cx (-1) (-1));
                  Line (Cx (-1) (-1)) (Cx (-1) 11);
                  Line (Cx (-1) 11) (Cx 11 11);
                  Line (Cx 11 11) (Cx 11 (-1));
                  Line (Cx 11 (-1)) (Cx (-1) (-1)) ] "blue" 1;
       SVG_FOOTER ].
Proof.
  unfold render, init. rewrite extents_of_corner, run_corner_stream.
  cbn [bind]. unfold get_svg_patttern.
  rewrite end_path_empty by reflexivity.
  cbn [bind snd pattern set_svg_current_path].
  rewrite SvgPattern_write_svg_ok by (simpl; lra).
  cbn [bind snd]. unfold border_paths. rewrite context_of_corner.
  unfold overall_size, pattern_size, bounding_box_path, SvgPath_svg, svg_path,
    cadd, csub, cscale.
  cbn [SvgPattern.extents SvgPattern.svg_elements fst snd real imag map app
       SvgOutputParams.width SvgOutputParams.margin SvgOutputParams.borders
       SvgOutputParams.oncolor SvgOutputParams.offcolor
       SvgOutputParams.default MarginSpec.get MarginSpec.margin_width
       MarginSpec.margin_height BorderSpec.color BorderSpec.border_margin
       SvgOutContext.params SvgOutContext.bounding_box_delta
       SvgOutContext.line_width SvgPath.needle_state SvgPath.path
       SvgPath.alternate_color String.eqb].
  replace (700 / (10 - 0)) with 70 by lra.
  replace (700 + 2 * 50) with 800 by lra.
  replace (70 * (10 - 0) + 2 * 50) with 800 by lra.
  rewrite header_of_corner.
  replace (0 - 1 * 1) with (-1) by lra.
  replace (10 + 1 * 1) with 11 by lra.
  reflexivity.
Qed.

End Examples.

(** * Further properties *)

(** ** The extent pass *)

Section ExtentPass.

Import QliSvgExtentsExecutor.

Lemma execute_app p q self :
  execute (p ++ q) self = execute q (execute p self).
Proof. unfold execute. apply fold_left_app. Qed.

Lemma execute_grows program self p :
  contains (get_extents self) p ->
  contains (get_extents (execute program self)) p.
Proof.
  revert self. induction program as [|c program IH]; intros self H; simpl.
  - exact H.
  - apply IH, visit_grows, H.
Qed.

(** X1.  The box the extent pass ends with contains the location it had
    after every prefix of the stream, the start at the origin included. *)
Theorem extents_contain_every_visited (program : list command) (n : nat) :
  contains (get_extents (execute program init)) (visited program n).
Proof.
  unfold visited.
  rewrite <- (firstn_skipn n program) at 1. rewrite execute_app.
  apply execute_grows.
  destruct (execute_inv (firstn n program) init init_inv) as [_ Hc].
  exact Hc.
Qed.

Lemma execute_snoc q c self :
  execute (q ++ [c]) self = visit (execute q self) c.
Proof. rewrite execute_app. reflexivity. Qed.

Lemma visited_snoc_old q c n :
  visited (q ++ [c]) (Nat.min n (List.length q)) = visited q n.
Proof.
  unfold visited. rewrite firstn_app.
  replace (Nat.min n (List.length q) - List.length q)%nat with 0%nat by lia.
  cbn [firstn]. rewrite app_nil_r.
  destruct (Nat.le_gt_cases n (List.length q)) as [Hle | Hgt].
  - rewrite Nat.min_l by exact Hle. reflexivity.
  - rewrite Nat.min_r by lia.
    rewrite firstn_all, (firstn_all2 (n := n)) by lia. reflexivity.
Qed.

Lemma visited_snoc_new q c :
  visited (q ++ [c]) (S (List.length q)) = cur_loc (execute (q ++ [c]) init).
Proof.
  unfold visited. rewrite firstn_all2; [reflexivity|].
  rewrite length_app. simpl. lia.
Qed.

(** Every bound is a coordinate of a visited location, once the stream is
    longer by a command that is no [Circle]. *)
Lemma attained_snoc (q : list command) (c : command)
    (bound : t -> R) (coordinate : complex -> R) :
  no_Circle c = true ->
  (bound (visit (execute q init) c) = bound (execute q init)
   \/ bound (visit (execute q init) c)
      = coordinate (cur_loc (visit (execute q init) c))) ->
  (exists n, bound (execute q init) = coordinate (visited q n)) ->
  exists n, bound (execute (q ++ [c]) init) = coordinate (visited (q ++ [c]) n).
Proof.
  intros _ Hstep [n Hn]. rewrite execute_snoc.
  destruct Hstep as [Hold | Hnew].
  - exists (Nat.min n (List.length q)).
    rewrite visited_snoc_old, Hold. exact Hn.
  - exists (S (List.length q)).
    rewrite visited_snoc_new, execute_snoc. exact Hnew.
Qed.

(** What one callback other than [doCircle] does to each bound: it keeps it
    or moves it to the new location. *)
Lemma visit_bounds self c :
  no_Circle c = true ->
  let self' := visit self c in
  (real (min_extent self') = real (min_extent self)
   \/ real (min_extent self') = real (cur_loc self'))
  /\ (imag (min_extent self') = imag (min_extent self)
      \/ imag (min_extent self') = imag (cur_loc self'))
  /\ (real (max_extent self') = real (max_extent self)
      \/ real (max_extent self') = real (cur_loc self'))
  /\ (imag (max_extent self') = imag (max_extent self)
      \/ imag (max_extent self') = imag (cur_loc self')).
Proof.
  intros Hc. destruct c; try discriminate Hc; cbn [visit];
    try (repeat split; left; reflexivity).
  unfold doVectorPosition, new_extent.
  cbn [min_extent max_extent cur_loc real imag].
  unfold Py.min, Py.max.
  repeat split; destruct (Rlt_dec _ _); auto.
Qed.

(** X2.  Without arcs the box is tight: each of its four bounds is the
    coordinate of a location the pass visited (the start at the origin
    included). *)
Theorem extents_attained_without_arcs (program : list command) :
  forallb no_Circle program = true ->
  let self := execute program init in
  (exists n, real (min_extent self) = real (visited program n))
  /\ (exists n, imag (min_extent self) = imag (visited program n))
  /\ (exists n, real (max_extent self) = real (visited program n))
  /\ (exists n, imag (max_extent self) = imag (visited program n)).
Proof.
  induction program as [|c q IH] using rev_ind; intros Hno.
  - cbv zeta. repeat split; exists 0%nat; reflexivity.
  - rewrite forallb_app in Hno. apply andb_prop in Hno.
    destruct Hno as [Hq Hc]. cbn [forallb] in Hc. rewrite andb_true_r in Hc.
    destruct (IH Hq) as (H1 & H2 & H3 & H4).
    destruct (visit_bounds (execute q init) c Hc) as (B1 & B2 & B3 & B4).
    cbv zeta. repeat split.
    + exact (attained_snoc q c (fun s => real (min_extent s)) real Hc B1 H1).
    + exact (attained_snoc q c (fun s => imag (min_extent s)) imag Hc B2 H2).
    + exact (attained_snoc q c (fun s => real (max_extent s)) real Hc B3 H3).
    + exact (attained_snoc q c (fun s => imag (max_extent s)) imag Hc B4 H4).
Qed.

(** A triangle of positions. *)
Lemma extents_attained_without_arcs_witness :
  let program := [VectorPosition 3 1; VectorPosition 0 2] in
  let self := execute program init in
  (exists n, real (min_extent self) = real (visited program n))
  /\ (exists n, imag (min_extent self) = imag (visited program n))
  /\ (exists n, real (max_extent self) = real (visited program n))
  /\ (exists n, imag (max_extent self) = imag (visited program n)).
Proof.
  exact (extents_attained_without_arcs
           [VectorPosition 3 1; VectorPosition 0 2] eq_refl).
Defined.

(** The loop of [doCircle] folds the quarter point of every counter it
    passes. *)
Lemma circle_loop_folds fuel r sp saf eaf i0 self i :
  (i0 <= i < 4)%Z -> (i - i0 < Z.of_nat fuel)%Z -> IZR (saf + i) < eaf ->
  contains (get_extents (circle_loop fuel r sp saf eaf i0 self))
           (cadd (csub (rect r (PI * (1 / 2) * IZR (saf + i))) sp)
                 (cur_loc self)).
Proof.
  revert i0 self. induction fuel as [|fuel IH]; intros i0 self Hi Hfuel Hlt.
  - simpl in Hfuel. lia.
  - assert (Hlt0 : IZR (saf + i0) < eaf).
    { apply Rle_lt_trans with (IZR (saf + i)); [|exact Hlt].
      apply IZR_le. lia. }
    rewrite circle_loop_step; [| lia | exact Hlt0].
    destruct (Z.eq_dec i i0) as [-> | Hne].
    + apply circle_loop_grows, new_extent_contains_loc.
    + rewrite <- (new_extent_cur_loc self
                   (cadd (csub (rect r (PI * (1 / 2) * IZR (saf + i0))) sp)
                         (cur_loc self))).
      apply IH; [lia | lia | exact Hlt].
Qed.

(** X3.  For an arc of at most 270 degrees, either way round, the box after
    [doCircle] contains the quarter point of every multiple [k] of 90
    degrees that lies strictly between the start angle and the end angle. *)
Theorem arc_quarter_points_in_box
    (self : t) (radius start_angle angle_range : R) (k : Z) :
  let sa := start_angle * PI / 180 in
  let ea := sa + angle_range * PI / 180 in
  Rabs angle_range <= 270 ->
  Rmin (2 * sa / PI) (2 * ea / PI) < IZR k < Rmax (2 * sa / PI) (2 * ea / PI) ->
  contains (get_extents (doCircle self radius start_angle angle_range))
           (quarter_point self radius start_angle k).
Proof.
  intros sa ea Hrange [Hlo Hhi].
  assert (Hpi : PI <> 0) by (pose proof PI_RGT_0; lra).
  assert (Hdiff : 2 * ea / PI - 2 * sa / PI = angle_range / 90)
    by (unfold ea; field; exact Hpi).
  unfold Rabs in Hrange. unfold Rmin in Hlo. unfold Rmax in Hhi.
  unfold doCircle. fold sa. fold ea.
  set (next_loc :=
         cadd (cur_loc self) (csub (rect radius ea) (rect radius sa))).
  destruct (Rlt_dec (2 * ea / PI) (2 * sa / PI)) as [Hswap | Hkeep];
    destruct (Rcase_abs angle_range) as [Hneg | Hpos];
    destruct (Rle_dec (2 * sa / PI) (2 * ea / PI)) as [Hle | Hgt];
    try lra;
    cbv zeta; unfold get_extents at 1; cbn [min_extent max_extent];
    match goal with
    | |- context [circle_loop 4 radius _ (Zfloor ?lo) ?hi 1 _] =>
        pose proof (Zfloor_bound lo) as [Hf1 Hf2];
        assert (H1 : (Zfloor lo < k)%Z) by (apply lt_IZR; lra);
        assert (H4 : (k < Zfloor lo + 4)%Z)
          by (apply lt_IZR; rewrite plus_IZR; simpl; lra);
        replace k with (Zfloor lo + (k - Zfloor lo))%Z by lia;
        unfold quarter_point; fold sa;
        rewrite <- (new_extent_cur_loc self next_loc);
        apply (circle_loop_folds 4);
          [ lia | simpl; lia
          | replace (Zfloor lo + (k - Zfloor lo))%Z with k by lia; lra ]
    end.
Qed.

(** A half circle from 0 degrees, and its quarter point at 90 degrees. *)
Lemma arc_quarter_points_in_box_witness :
  Rabs 180 <= 270
  /\ Rmin (2 * (0 * PI / 180) / PI) (2 * (0 * PI / 180 + 180 * PI / 180) / PI)
     < IZR 1
     < Rmax (2 * (0 * PI / 180) / PI)
            (2 * (0 * PI / 180 + 180 * PI / 180) / PI)
  /\ contains (get_extents (doCircle init 1 0 180))
              (quarter_point init 1 0 1).
Proof.
  assert (Hpi : PI <> 0) by (pose proof PI_RGT_0; lra).
  assert (Hr : Rabs 180 <= 270) by (rewrite Rabs_pos_eq; lra).
  assert (Hk : Rmin (2 * (0 * PI / 180) / PI)
                    (2 * (0 * PI / 180 + 180 * PI / 180) / PI)
               < IZR 1
               < Rmax (2 * (0 * PI / 180) / PI)
                      (2 * (0 * PI / 180 + 180 * PI / 180) / PI)).
  { replace (2 * (0 * PI / 180) / PI) with 0 by (field; exact Hpi).
    replace (2 * (0 * PI / 180 + 180 * PI / 180) / PI) with 2
      by (field; exact Hpi).
    rewrite Rmin_left, Rmax_right by lra. lra. }
  split; [exact Hr|]. split; [exact Hk|].
  exact (arc_quarter_points_in_box init 1 0 180 1 Hr Hk).
Defined.

Lemma rect_full_turn_at r a :
  rect r (a + 360 * PI / 180) = rect r a.
Proof.
  unfold rect. replace (a + 360 * PI / 180) with (a + 2 * PI) by lra.
  rewrite cos_plus, sin_plus, cos_2PI, sin_2PI. f_equal; ring.
Qed.

(** The bound of 270 degrees is needed: the loop of [doCircle] stops after
    three quarter points.  On a fresh pass, the full circle of radius 1 that
    starts at 45 degrees passes 90, 180, 270 and 360 degrees, and the quarter
    point at 360 degrees stays outside the box. *)
Example arc_over_270_misses_a_quarter_point :
  let sa := 45 * PI / 180 in
  let ea := sa + 360 * PI / 180 in
  (2 * sa / PI < IZR 4 < 2 * ea / PI)
  /\ ~ contains (get_extents (doCircle init 1 45 360))
                (quarter_point init 1 45 4).
Proof.
  cbv zeta.
  assert (Hpi : PI <> 0) by (pose proof PI_RGT_0; lra).
  assert (Hsa : 2 * (45 * PI / 180) / PI = 1 / 2) by (field; exact Hpi).
  assert (Hea : 2 * (45 * PI / 180 + 360 * PI / 180) / PI = 9 / 2)
    by (field; exact Hpi).
  split; [rewrite Hsa, Hea; simpl; lra|].
  set (c := cos (PI / 4)).
  assert (Hc : 0 < c < 1).
  { pose proof (sin2_cos2 (PI / 4)) as H. rewrite sin_cos_PI4 in H.
    unfold Rsqr in H. fold c in H.
    assert (0 < c) by (apply cos_gt_0; pose proof PI_RGT_0; lra).
    split; nra. }
  intros [[_ Hx] _]. revert Hx.
  unfold quarter_point, doCircle. rewrite Hsa, Hea.
  destruct (Rlt_dec (9 / 2) (1 / 2)) as [Hlt | _]; [lra|].
  rewrite (Zfloor_eq 0 (1 / 2)) by (simpl; lra).
  rewrite circle_loop_step; [| lia | simpl; lra].
  rewrite circle_loop_step; [| lia | simpl; lra].
  rewrite circle_loop_step; [| lia | simpl; lra].
  rewrite circle_loop_exit; [| left; lia].
  rewrite rect_quarter_1, rect_quarter_2, rect_quarter_3.
  replace (PI * (1 / 2) * IZR 4) with (2 * PI) by (simpl; lra).
  replace (45 * PI / 180) with (PI / 4) by lra.
  unfold rect at 1. rewrite cos_2PI.
  replace (rect 1 (PI / 4 + 360 * PI / 180)) with (rect 1 (PI / 4))
    by (symmetry; apply rect_full_turn_at).
  unfold rect. fold c.
  unfold get_extents.
  cbn [snd fst real imag max_extent cur_loc init cadd csub c0].
  intros Hx.
  match type of Hx with
  | _ <= real (max_extent ?boxed) =>
      assert (Hmax : real (max_extent boxed) <= 0)
        by (repeat apply new_extent_max_real_le; simpl; lra)
  end.
  lra.
Qed.

Lemma circle_loop_axes_relative fuel r sp saf eaf i self :
  axes (circle_loop fuel r sp saf eaf i self) = axes self
  /\ relative (circle_loop fuel r sp saf eaf i self) = relative self.
Proof.
  revert i self. induction fuel as [|fuel IH]; intros i self; simpl.
  - split; reflexivity.
  - destruct ((i <? 4)%Z && ltb (IZR (saf + i)) eaf); [|split; reflexivity].
    destruct (IH (i + 1)%Z
                (new_extent self
                   (cadd (csub (rect r (PI * (1 / 2) * IZR (saf + i))) sp)
                         (cur_loc self)))) as [Ha Hr].
    rewrite Ha, Hr. split; reflexivity.
Qed.

(** Where [doCircle] leaves the pass: at the end of the chord. *)
Lemma doCircle_moves self radius start_angle angle_range :
  let sa := start_angle * PI / 180 in
  let ea := sa + angle_range * PI / 180 in
  let self' := doCircle self radius start_angle angle_range in
  axes self' = axes self
  /\ cur_loc self'
     = cadd (cur_loc self) (csub (rect radius ea) (rect radius sa))
  /\ relative self' = relative self.
Proof.
  intros sa ea. unfold doCircle. fold sa. fold ea.
  destruct (Rlt_dec (2 * ea / PI) (2 * sa / PI)); cbv zeta;
    cbn [axes cur_loc relative];
    match goal with
    | |- context [circle_loop ?f ?r ?sp ?saf ?eaf ?i ?s] =>
        destruct (circle_loop_axes_relative f r sp saf eaf i s) as [-> ->]
    end;
    repeat split; reflexivity.
Qed.

Lemma visit_shifted o a b c :
  no_ClearSequence c = true ->
  shifted o a b -> shifted o (visit a c) (visit b c).
Proof.
  intros Hc (Hax & Hcur & Hrel).
  destruct c; try discriminate Hc; cbn [visit].
  - (* VectorMotion *)
    repeat split; [exact Hcur | exact Hrel].
  - (* Circle *)
    destruct (doCircle_moves a radius start_angle angle_range)
      as (Ha1 & Ha2 & Ha3).
    destruct (doCircle_moves b radius start_angle angle_range)
      as (Hb1 & Hb2 & Hb3).
    unfold shifted. rewrite Ha1, Ha2, Ha3, Hb1, Hb2, Hb3, Hcur.
    repeat split; [exact Hax | | exact Hrel].
    apply complex_eq; simpl; lra.
  - (* VectorPosition *)
    unfold shifted, doVectorPosition, coord.
    cbn [axes cur_loc relative new_extent]. rewrite Hax, Hrel.
    repeat split; apply complex_eq; simpl; lra.
  - (* VectorSequenceEnd *)
    unfold shifted, doVectorSequenceEnd. cbn [axes cur_loc relative].
    repeat split; assumption.
  - repeat split; assumption.
  - repeat split; assumption.
  - repeat split; assumption.
Qed.

Lemma execute_shifted o program a b :
  forallb no_ClearSequence program = true ->
  shifted o a b -> shifted o (execute program a) (execute program b).
Proof.
  revert a b. induction program as [|c program IH]; intros a b Hno H.
  - exact H.
  - cbn [forallb] in Hno. apply andb_prop in Hno. destruct Hno as [Hc Hno].
    simpl. apply IH; [exact Hno|]. apply visit_shifted; assumption.
Qed.

(** X4.  Sequences chain by translation.  After [p] and the end of a
    sequence, a stream [q] without [ClearSequence] takes the pass to where
    it takes a fresh pass with the same axes, moved by the location at which
    [p] ended. *)
Theorem sequences_chain_by_translation (p q : list command) :
  forallb no_ClearSequence q = true ->
  let ended := execute p init in
  cur_loc (execute (p ++ VectorSequenceEnd :: q) init)
  = cadd (cur_loc (execute q (fresh_with_axes (axes ended))))
         (cur_loc ended).
Proof.
  intros Hno ended. rewrite execute_app. fold ended.
  change (execute (VectorSequenceEnd :: q) ended)
    with (execute q (doVectorSequenceEnd ended)).
  destruct (execute_shifted (cur_loc ended) q
              (fresh_with_axes (axes ended)) (doVectorSequenceEnd ended) Hno)
    as (_ & Hcur & _).
  - unfold shifted, fresh_with_axes, doVectorSequenceEnd.
    cbn [axes cur_loc relative].
    repeat split; apply complex_eq; simpl; lra.
  - exact Hcur.
Qed.

(** Two sequences of one position each. *)
Lemma sequences_chain_by_translation_witness :
  let p := [VectorPosition 1 2] in
  let q := [VectorPosition 3 4] in
  cur_loc (execute (p ++ VectorSequenceEnd :: q) init)
  = cadd (cur_loc (execute q (fresh_with_axes (axes (execute p init)))))
         (cur_loc (execute p init)).
Proof.
  exact (sequences_chain_by_translation
           [VectorPosition 1 2] [VectorPosition 3 4] eq_refl).
Defined.

End ExtentPass.

(** ** The render pass *)

Section RenderPass.

Import QliSvgExecutor.

Lemma end_path_flush self : end_path self = Ok (flush self).
Proof.
  unfold flush, flushed_pattern.
  destruct (svg_current_path self) as [|first rest] eqn:E.
  - rewrite (end_path_empty self E). destruct self; reflexivity.
  - rewrite (end_path_push self first rest E). reflexivity.
Qed.

Lemma visit_step self c : visit self c = Ok (step self c).
Proof.
  destruct c; cbn [visit step]; try reflexivity.
  - unfold doVectorSequenceEnd. rewrite end_path_flush. reflexivity.
  - unfold doNeedleOff, set_needle.
    destruct (needle_on self); cbn [Bool.eqb negb];
      [rewrite end_path_flush|]; reflexivity.
  - unfold doNeedleOn, set_needle.
    destruct (needle_on self); cbn [Bool.eqb negb];
      [|rewrite end_path_flush]; reflexivity.
  - unfold doEnd. apply end_path_flush.
Qed.

Lemma execute_steps program self :
  execute program self = Ok (fold_left step program self).
Proof.
  revert self. induction program as [|c program IH]; intros self.
  - reflexivity.
  - cbn [execute fold_left]. rewrite visit_step. cbn [bind]. apply IH.
Qed.

Lemma run_steps program self :
  run program self = Ok (flush (fold_left step program self)).
Proof.
  unfold run. rewrite execute_steps. cbn [bind]. apply end_path_flush.
Qed.

(** *** The two passes *)

Lemma step_agree p e c :
  agree p e -> agree (step p c) (QliSvgExtentsExecutor.visit e c).
Proof.
  intros (Hax & Hcur & Hrel & Hstart).
  destruct c; cbn [step QliSvgExtentsExecutor.visit].
  - (* VectorMotion *)
    repeat split; assumption.
  - (* Circle *)
    destruct (doCircle_moves e radius start_angle angle_range)
      as (E1 & E2 & E3).
    unfold agree. rewrite E1, E2, E3.
    unfold doCircle.
    cbn [axes cur_loc relative start_loc set_cur_loc set_svg_current_path].
    replace (PI * start_angle / 180) with (start_angle * PI / 180) by lra.
    rewrite Hcur. repeat split; assumption.
  - (* VectorPosition *)
    unfold agree, doVectorPosition, coord,
      QliSvgExtentsExecutor.doVectorPosition, QliSvgExtentsExecutor.coord.
    cbn [axes cur_loc relative start_loc set_cur_loc set_svg_current_path
         QliSvgExtentsExecutor.axes QliSvgExtentsExecutor.cur_loc
         QliSvgExtentsExecutor.relative QliSvgExtentsExecutor.new_extent].
    rewrite Hax, Hrel. repeat split; assumption.
  - (* ClearSequence *)
    unfold agree, doClearSequence, QliSvgExtentsExecutor.doClearSequence.
    cbn [axes cur_loc relative start_loc set_cur_loc
         QliSvgExtentsExecutor.axes QliSvgExtentsExecutor.cur_loc
         QliSvgExtentsExecutor.relative].
    repeat split; assumption.
  - (* VectorSequenceEnd *)
    unfold agree, QliSvgExtentsExecutor.doVectorSequenceEnd.
    cbn [axes cur_loc relative start_loc set_relative flush set_pattern
         set_svg_current_path QliSvgExtentsExecutor.axes
         QliSvgExtentsExecutor.cur_loc QliSvgExtentsExecutor.relative].
    repeat split; assumption.
  - (* NeedleOff *)
    destruct (needle_on p); repeat split; assumption.
  - (* NeedleOn *)
    destruct (needle_on p); repeat split; assumption.
  - (* End *)
    repeat split; assumption.
Qed.

Lemma steps_agree program p e :
  agree p e ->
  agree (fold_left step program p) (QliSvgExtentsExecutor.execute program e).
Proof.
  revert p e. induction program as [|c program IH]; intros p e H.
  - exact H.
  - simpl. apply IH, step_agree, H.
Qed.

(** The extent pass an executor holds, and the extents of its pattern, stay
    as [__init__] made them. *)
Lemma step_keeps p c :
  extents (step p c) = extents p
  /\ SvgPattern.extents (pattern (step p c)) = SvgPattern.extents (pattern p).
Proof.
  assert (F : extents (flush p) = extents p
              /\ SvgPattern.extents (pattern (flush p))
                 = SvgPattern.extents (pattern p)).
  { unfold flush, flushed_pattern.
    destruct (svg_current_path p); split; reflexivity. }
  destruct c; cbn [step]; try (split; reflexivity); try exact F.
  - destruct (needle_on p); [exact F | split; reflexivity].
  - destruct (needle_on p); [split; reflexivity | exact F].
Qed.

Lemma steps_keep program p :
  extents (fold_left step program p) = extents p
  /\ SvgPattern.extents (pattern (fold_left step program p))
     = SvgPattern.extents (pattern p).
Proof.
  revert p. induction program as [|c program IH]; intros p.
  - split; reflexivity.
  - simpl. destruct (IH (step p c)) as [-> ->]. apply step_keeps.
Qed.

(** X5.  The two passes agree.  [run] ends with the axes, the current
    location and the relative origin with which the extent pass over the
    same stream ended, and that extent pass is the one the executor holds. *)
Theorem passes_agree (program : list command) :
  exists self',
    run program (init program) = Ok self'
    /\ extents self'
       = QliSvgExtentsExecutor.execute program QliSvgExtentsExecutor.init
    /\ axes self' = QliSvgExtentsExecutor.axes (extents self')
    /\ cur_loc self' = QliSvgExtentsExecutor.cur_loc (extents self')
    /\ relative self' = QliSvgExtentsExecutor.relative (extents self').
Proof.
  rewrite run_steps. eexists. split; [reflexivity|].
  assert (Hext : extents (flush (fold_left step program (init program)))
                 = QliSvgExtentsExecutor.execute program
                     QliSvgExtentsExecutor.init).
  { change (extents (flush (fold_left step program (init program))))
      with (extents (fold_left step program (init program))).
    destruct (steps_keep program (init program)) as [-> _]. reflexivity. }
  split; [exact Hext|]. rewrite Hext.
  destruct (steps_agree program (init program) QliSvgExtentsExecutor.init)
    as (Hax & Hcur & Hrel & _).
  { repeat split. }
  repeat split; assumption.
Qed.

(** *** The drawing lies in the extents *)

Lemma path_in_grows (box box' : complex * complex) (path : Path) :
  (forall q, contains box q -> contains box' q) ->
  path_in box path -> path_in box' path.
Proof.
  intros Hgrow H. unfold path_in in *.
  eapply Forall_impl; [|exact H].
  intros seg Hseg. eapply Forall_impl; [|exact Hseg]. exact Hgrow.
Qed.

Lemma inside_grows p e e' :
  (forall q, contains (QliSvgExtentsExecutor.get_extents e) q ->
             contains (QliSvgExtentsExecutor.get_extents e') q) ->
  inside p e -> inside p e'.
Proof.
  intros Hgrow [Hopen Hsegs]. split.
  - exact (path_in_grows _ _ _ Hgrow Hopen).
  - eapply Forall_impl; [|exact Hsegs].
    intros sp. apply path_in_grows. exact Hgrow.
Qed.

Lemma flush_inside p e : inside p e -> inside (flush p) e.
Proof.
  intros [Hopen Hsegs]. unfold inside, flush, flushed_pattern, segments.
  cbn [svg_current_path pattern set_svg_current_path set_pattern].
  split; [constructor|].
  destruct (svg_current_path p) as [|first rest] eqn:E; [exact Hsegs|].
  cbn [SvgPattern.append SvgPattern.svg_elements].
  apply Forall_app. split; [exact Hsegs|].
  constructor; [|constructor].
  unfold materialized. cbn [SvgPath.path].
  destruct (is_Move first); [exact Hopen|].
  constructor; [|exact Hopen].
  apply Forall_inv in Hopen. apply Forall_inv in Hopen.
  unfold segment_points. cbn [segment_start segment_end].
  constructor; [exact Hopen | constructor; [exact Hopen | constructor]].
Qed.

(** A drawing callback appends one primitive, from the old location to the
    new one. *)
Lemma step_draws p c :
  is_motion c = true ->
  exists seg,
    svg_current_path (step p c) = svg_current_path p ++ [seg]
    /\ segment_start seg = cur_loc p
    /\ segment_end seg = cur_loc (step p c)
    /\ is_Move seg = false
    /\ segments (step p c) = segments p.
Proof.
  intros Hc. destruct c; try discriminate Hc; cbn [step].
  - eexists. repeat split.
  - eexists. repeat split.
Qed.

(** Any other callback leaves the open path alone or flushes it. *)
Lemma step_keeps_or_flushes p c :
  is_motion c = false ->
  (svg_current_path (step p c) = svg_current_path p
   /\ segments (step p c) = segments p)
  \/ (svg_current_path (step p c) = svg_current_path (flush p)
      /\ segments (step p c) = segments (flush p)).
Proof.
  intros Hc. destruct c; try discriminate Hc; cbn [step];
    try (left; split; reflexivity); try (right; split; reflexivity).
  - destruct (needle_on p); [right | left]; split; reflexivity.
  - destruct (needle_on p); [left | right]; split; reflexivity.
Qed.

Lemma step_inside p e c :
  agree p e -> extents_inv e -> inside p e ->
  inside (step p c) (QliSvgExtentsExecutor.visit e c).
Proof.
  intros Hagree Hinv Hin.
  pose proof (step_agree p e c Hagree) as (_ & Hcur' & _).
  destruct Hagree as (_ & Hcur & _).
  pose proof (visit_inv e c Hinv) as [_ Hnew].
  destruct Hinv as [_ Hold].
  assert (Hgrow : forall q,
             contains (QliSvgExtentsExecutor.get_extents e) q ->
             contains (QliSvgExtentsExecutor.get_extents
                         (QliSvgExtentsExecutor.visit e c)) q)
    by (intros q; apply visit_grows).
  destruct (is_motion c) eqn:Hc.
  - destruct (step_draws p c Hc) as (seg & Hopen & Hs & He & _ & Hsegs).
    destruct (inside_grows p e _ Hgrow Hin) as [Hopen' Hsegs'].
    unfold inside. rewrite Hopen, Hsegs. split; [|exact Hsegs'].
    apply Forall_app. split; [exact Hopen'|].
    constructor; [|constructor].
    unfold segment_points. rewrite Hs, He, Hcur, Hcur'.
    constructor; [apply Hgrow, Hold | constructor; [exact Hnew | constructor]].
  - destruct (step_keeps_or_flushes p c Hc) as [[Ho Hs] | [Ho Hs]];
      unfold inside; rewrite Ho, Hs.
    + exact (inside_grows p e _ Hgrow Hin).
    + exact (inside_grows (flush p) e _ Hgrow (flush_inside p e Hin)).
Qed.

Lemma steps_inside program p e :
  agree p e -> extents_inv e -> inside p e ->
  inside (fold_left step program p) (QliSvgExtentsExecutor.execute program e).
Proof.
  revert p e. induction program as [|c program IH]; intros p e Ha Hi Hin.
  - exact Hin.
  - simpl. apply IH.
    + apply step_agree, Ha.
    + apply visit_inv, Hi.
    + apply step_inside; assumption.
Qed.

(** X6.  The drawing lies in the extents.  After [run], the start and the
    end of every primitive of every segment lie in the bounding box of the
    pattern. *)
Theorem segments_within_extents (program : list command) :
  exists self',
    run program (init program) = Ok self'
    /\ Forall (fun sp =>
                 path_in (SvgPattern.extents (pattern self'))
                         (SvgPath.path sp))
              (segments self').
Proof.
  rewrite run_steps. eexists. split; [reflexivity|].
  assert (Hbox : SvgPattern.extents
                   (pattern (flush (fold_left step program (init program))))
                 = QliSvgExtentsExecutor.get_extents
                     (QliSvgExtentsExecutor.execute program
                        QliSvgExtentsExecutor.init)).
  { destruct (steps_keep program (init program)) as [_ Hk].
    destruct (step_keeps (fold_left step program (init program)) End)
      as [_ Hf].
    cbn [step] in Hf. rewrite Hf, Hk. reflexivity. }
  rewrite Hbox.
  apply (flush_inside _ _
           (steps_inside program (init program) QliSvgExtentsExecutor.init
              ltac:(repeat split) init_inv
              ltac:(split; constructor))).
Qed.

(** *** Nothing is lost *)

Lemma strokes_app (a b : Path) : strokes (a ++ b) = strokes a ++ strokes b.
Proof. apply filter_app. Qed.

Lemma strokes_materialized needle first rest color :
  strokes (SvgPath.path (materialized needle first rest color))
  = strokes (first :: rest).
Proof.
  unfold materialized. cbn [SvgPath.path].
  destruct (is_Move first); reflexivity.
Qed.

Lemma flush_drawn p : drawn (flush p) = drawn p.
Proof.
  unfold drawn, flush, flushed_pattern, segments.
  cbn [svg_current_path pattern set_svg_current_path set_pattern].
  destruct (svg_current_path p) as [|first rest]; [reflexivity|].
  cbn [SvgPattern.append SvgPattern.svg_elements].
  rewrite flat_map_app, length_app. cbn [flat_map].
  rewrite app_nil_r, strokes_materialized. cbn [strokes filter List.length].
  lia.
Qed.

Lemma step_drawn p c :
  drawn (step p c) = (drawn p + if is_motion c then 1 else 0)%nat.
Proof.
  destruct (is_motion c) eqn:Hc.
  - destruct (step_draws p c Hc) as (seg & Hopen & _ & _ & Hmove & Hsegs).
    unfold drawn. rewrite Hopen, Hsegs, strokes_app, length_app.
    cbn [strokes filter]. rewrite Hmove. cbn [negb List.length]. lia.
  - destruct (step_keeps_or_flushes p c Hc) as [[Ho Hs] | [Ho Hs]].
    + unfold drawn. rewrite Ho, Hs. lia.
    + rewrite <- (flush_drawn p). unfold drawn. rewrite Ho, Hs. lia.
Qed.

Lemma steps_drawn program p :
  drawn (fold_left step program p)
  = (drawn p + List.length (filter is_motion program))%nat.
Proof.
  revert p. induction program as [|c program IH]; intros p.
  - simpl. lia.
  - cbn [fold_left filter]. rewrite IH, step_drawn.
    destruct (is_motion c); simpl; lia.
Qed.

(** X7.  Nothing is lost and nothing is drawn twice: after [run] the
    segments hold, apart from their leading moves, as many primitives as the
    stream has position and arc commands. *)
Theorem segments_hold_every_motion (program : list command) :
  exists self',
    run program (init program) = Ok self'
    /\ svg_current_path self' = []
    /\ List.length
         (flat_map (fun sp => strokes (SvgPath.path sp)) (segments self'))
       = List.length (filter is_motion program).
Proof.
  rewrite run_steps. eexists. split; [reflexivity|]. split; [reflexivity|].
  pose proof (flush_drawn (fold_left step program (init program))) as H.
  rewrite steps_drawn in H. unfold drawn at 1 in H.
  change (svg_current_path (flush (fold_left step program (init program))))
    with (@nil segment) in H.
  cbn [strokes filter List.length] in H.
  change (drawn (init program)) with 0%nat in H. lia.
Qed.

(** *** No gaps *)

Lemma path_end_snoc from path seg :
  path_end from (path ++ [seg]) = segment_end seg.
Proof. unfold path_end. rewrite fold_left_app. reflexivity. Qed.

Lemma chained_snoc from path seg :
  chained from path -> segment_start seg = path_end from path ->
  chained from (path ++ [seg]).
Proof.
  revert from. induction path as [|a path IH]; intros from Hch Hs.
  - cbn. split; [exact Hs | exact I].
  - destruct Hch as [Ha Hrest]. cbn [app chained]. split; [exact Ha|].
    apply IH; [exact Hrest | exact Hs].
Qed.

Lemma materialized_contiguous needle first rest color from :
  chained from (first :: rest) ->
  contiguous (SvgPath.path (materialized needle first rest color)).
Proof.
  intros Hch. unfold materialized. cbn [SvgPath.path].
  destruct (is_Move first).
  - exists from. exact Hch.
  - exists (segment_start first). cbn [chained segment_start segment_end].
    split; [reflexivity|]. destruct Hch as [_ Hrest].
    split; [reflexivity | exact Hrest].
Qed.

Lemma flush_gapless p : gapless p -> gapless (flush p).
Proof.
  intros [(from & Hch & _) Hsegs]. unfold gapless, flush, flushed_pattern.
  unfold segments.
  cbn [svg_current_path pattern cur_loc set_svg_current_path set_pattern].
  split; [exists (cur_loc p); split; [exact I | reflexivity]|].
  destruct (svg_current_path p) as [|first rest]; [exact Hsegs|].
  cbn [SvgPattern.append SvgPattern.svg_elements].
  apply Forall_app. split; [exact Hsegs|].
  constructor; [|constructor].
  exact (materialized_contiguous _ first rest None from Hch).
Qed.

(** A callback that neither draws nor clears the sequence stays put. *)
Lemma step_stays p c :
  is_motion c = false -> no_ClearSequence c = true ->
  cur_loc (step p c) = cur_loc p.
Proof.
  intros Hm Hc. destruct c; try discriminate Hm; try discriminate Hc;
    cbn [step]; try reflexivity.
  - destruct (needle_on p); reflexivity.
  - destruct (needle_on p); reflexivity.
Qed.

Lemma step_gapless p c :
  no_ClearSequence c = true -> gapless p -> gapless (step p c).
Proof.
  intros Hc Hg. destruct (is_motion c) eqn:Hm.
  - destruct Hg as [(from & Hch & Hend) Hsegs].
    destruct (step_draws p c Hm) as (seg & Hopen & Hs & He & _ & Hsg).
    unfold gapless. rewrite Hopen, Hsg. split; [|exact Hsegs].
    exists from. split.
    + apply chained_snoc; [exact Hch|]. rewrite Hs, Hend. reflexivity.
    + rewrite path_end_snoc. exact He.
  - pose proof (step_stays p c Hm Hc) as Hstay.
    destruct (step_keeps_or_flushes p c Hm) as [[Ho Hs] | [Ho Hs]];
      unfold gapless; rewrite Ho, Hs, Hstay.
    + exact Hg.
    + exact (flush_gapless p Hg).
Qed.

Lemma steps_gapless program p :
  forallb no_ClearSequence program = true ->
  gapless p -> gapless (fold_left step program p).
Proof.
  revert p. induction program as [|c program IH]; intros p Hno Hg.
  - exact Hg.
  - cbn [forallb] in Hno. apply andb_prop in Hno. destruct Hno as [Hc Hno].
    simpl. apply IH; [exact Hno|]. apply step_gapless; assumption.
Qed.

(** X8.  No gaps.  For a stream without [ClearSequence], every segment that
    [run] leaves is one stroke of the pen: each primitive starts where the
    one before it ended. *)
Theorem segments_are_contiguous (program : list command) :
  forallb no_ClearSequence program = true ->
  exists self',
    run program (init program) = Ok self'
    /\ Forall (fun sp => contiguous (SvgPath.path sp)) (segments self').
Proof.
  intros Hno. rewrite run_steps. eexists. split; [reflexivity|].
  apply flush_gapless, steps_gapless; [exact Hno|].
  split; [|constructor].
  exists c0. split; [exact I | reflexivity].
Qed.

(** The stream of the scenario of the specification. *)
Lemma segments_are_contiguous_witness :
  exists self',
    run corner_stream (init corner_stream) = Ok self'
    /\ Forall (fun sp => contiguous (SvgPath.path sp)) (segments self').
Proof. exact (segments_are_contiguous corner_stream eq_refl). Defined.

End RenderPass.

(** ** Full circles *)

Section FullCircle.




End FullCircle.

(** ** Float clean-up and dicts *)

Section Dicts.

Lemma condition_floats_cleaned kwds :
  condition_floats EPLSILON kwds
  = map (fun kv => (fst kv, cleaned kwds (snd kv))) kwds.
Proof. reflexivity. Qed.

Lemma max_abs_of_nonneg kwds : 0 <= max_abs_of kwds.
Proof. destruct (max_abs_from_bounds kwds 0) as (H & _). exact H. Qed.

Lemma max_abs_of_is_largest kv kwds :
  is_largest_abs (kv :: kwds) (max_abs_of (kv :: kwds)).
Proof.
  destruct (max_abs_from_bounds (kv :: kwds) 0) as (Hge & Hall & Hwit).
  fold (max_abs_of (kv :: kwds)) in *.
  split; [|exact Hall].
  destruct Hwit as [H0 | Hex]; [|exact Hex].
  exists kv. split; [left; reflexivity|].
  pose proof (Hall kv (or_introl eq_refl)) as Hle.
  pose proof (Rabs_pos (snd kv)). lra.
Qed.

(** The component of largest magnitude passes the test of [cleaned]. *)
Lemma cleaned_largest kwds v :
  Rabs v = max_abs_of kwds -> cleaned kwds v = v.
Proof.
  intros H. apply cleaned_keep. rewrite div_EPLSILON, H.
  pose proof (max_abs_of_nonneg kwds). lra.
Qed.

Lemma cleaned_bound kwds v :
  Rabs v <= max_abs_of kwds -> Rabs (cleaned kwds v) <= max_abs_of kwds.
Proof.
  intros H. unfold cleaned. destruct (Rlt_dec _ _); [|exact H].
  rewrite Rabs_R0. apply max_abs_of_nonneg.
Qed.

(** The clean-up leaves the largest magnitude of a group as it is. *)
Lemma max_abs_of_condition_floats kwds :
  max_abs_of (condition_floats EPLSILON kwds) = max_abs_of kwds.
Proof.
  destruct kwds as [|kv0 kwds]; [reflexivity|].
  set (group := kv0 :: kwds).
  destruct (max_abs_of_is_largest kv0 kwds) as [(kv & Hin & Heq) Hall].
  fold group in Hin, Heq, Hall.
  apply max_abs_of_largest. rewrite condition_floats_cleaned. split.
  - exists (fst kv, cleaned group (snd kv)). split.
    + apply (in_map (fun kv => (fst kv, cleaned group (snd kv)))), Hin.
    + cbn [snd]. rewrite (cleaned_largest group _ Heq). exact Heq.
  - intros kv' Hin'. apply in_map_iff in Hin'.
    destruct Hin' as (kv'' & <- & Hin''). cbn [snd].
    apply cleaned_bound, Hall, Hin''.
Qed.

(** X10.  The clean-up is idempotent: cleaning a cleaned group changes
    nothing. *)
Theorem condition_floats_idempotent (kwds : dict) :
  condition_floats EPLSILON (condition_floats EPLSILON kwds)
  = condition_floats EPLSILON kwds.
Proof.
  rewrite (condition_floats_cleaned (condition_floats EPLSILON kwds)).
  unfold cleaned at 1. rewrite max_abs_of_condition_floats.
  rewrite (condition_floats_cleaned kwds), map_map.
  apply map_ext. intros kv. cbn [fst snd]. f_equal.
  unfold cleaned.
  destruct (Rlt_dec (Rabs (snd kv) / EPLSILON) (max_abs_of kwds)) as [L | L].
  - destruct (Rlt_dec _ _); reflexivity.
  - destruct (Rlt_dec _ _); [contradiction | reflexivity].
Qed.

(** X11.  The clean-up never wipes out a group: a component whose magnitude
    is the largest of its group is kept as it is. *)
Theorem condition_floats_keeps_largest (kwds : dict) (m : R)
    (kv : string * R) :
  is_largest_abs kwds m -> In kv kwds -> Rabs (snd kv) = m ->
  In kv (condition_floats EPLSILON kwds).
Proof.
  intros Hm Hin Heq. rewrite condition_floats_cleaned.
  apply in_map_iff. exists kv. split; [|exact Hin].
  rewrite cleaned_largest; [destruct kv; reflexivity|].
  rewrite (max_abs_of_largest kwds m Hm). exact Heq.
Qed.

(** A shift of 750 next to a noise of 1e-9. *)
Lemma condition_floats_keeps_largest_witness :
  In ("translatey", 750)
     (condition_floats EPLSILON
        [("translatex", 1 / 1000000000); ("translatey", 750)]).
Proof.
  apply (condition_floats_keeps_largest _ 750).
  - split.
    + exists ("translatey", 750). split; [right; left; reflexivity|].
      apply Rabs_pos_eq. lra.
    + intros kv [<- | [<- | []]]; simpl; rewrite Rabs_pos_eq; lra.
  - right. left. reflexivity.
  - apply Rabs_pos_eq. simpl. lra.
Defined.

Lemma dict_get_set k k' v d :
  dict_get k (dict_set k' v d)
  = if String.eqb k k' then Some v else dict_get k d.
Proof.
  induction d as [|[k0 v0] d IH]; cbn [dict_set dict_get].
  - reflexivity.
  - destruct (String.eqb k' k0) eqn:E0; cbn [dict_get].
    + apply String.eqb_eq in E0. subst k0.
      destruct (String.eqb k k'); reflexivity.
    + rewrite IH. destruct (String.eqb k k0) eqn:E1; [|reflexivity].
      apply String.eqb_eq in E1. subst k0.
      rewrite String.eqb_sym, E0. reflexivity.
Qed.

Lemma dict_get_app k d d' :
  dict_get k (d ++ d')
  = match dict_get k d with
    | Some v => Some v
    | None => dict_get k d'
    end.
Proof.
  induction d as [|[k0 v0] d IH]; cbn [app dict_get]; [reflexivity|].
  destruct (String.eqb k k0); [reflexivity | exact IH].
Qed.

Lemma dict_get_update k d other :
  dict_get k (dict_update d other)
  = match dict_get k (rev other) with
    | Some v => Some v
    | None => dict_get k d
    end.
Proof.
  unfold dict_update. revert d.
  induction other as [|[k0 v0] other IH]; intros d; cbn [fold_left rev].
  - reflexivity.
  - rewrite IH, dict_get_app, dict_get_set. cbn [fst snd dict_get].
    destruct (dict_get k (rev other)); [reflexivity|].
    destruct (String.eqb k k0); reflexivity.
Qed.

Lemma dict_get_merge k dict_args acc :
  dict_get k (fold_left dict_update dict_args acc)
  = match dict_get k (rev (List.concat dict_args)) with
    | Some v => Some v
    | None => dict_get k acc
    end.
Proof.
  revert acc. induction dict_args as [|d dict_args IH]; intros acc.
  - reflexivity.
  - cbn [fold_left List.concat]. rewrite IH, rev_app_distr, dict_get_app.
    destruct (dict_get k (rev (List.concat dict_args))); [reflexivity|].
    apply dict_get_update.
Qed.

(** X12.  In a merged dict the last pair wins: looking a key up in
    [merge_dicts] of some dicts gives the value of the last pair with that
    key among all their pairs, in order, and nothing if there is none. *)
Theorem merge_dicts_last_wins (k : string) (dict_args : list dict) :
  dict_get k (merge_dicts dict_args) = dict_get k (rev (List.concat dict_args)).
Proof.
  unfold merge_dicts. rewrite dict_get_merge.
  destruct (dict_get k (rev (List.concat dict_args))); reflexivity.
Qed.

End Dicts.

(** ** Matrices and the header *)

Section Matrices.

Lemma mat3_eta m :
  m = Mat3 (a00 m) (a01 m) (a02 m) (a10 m) (a11 m) (a12 m)
           (a20 m) (a21 m) (a22 m).
Proof. destruct m; reflexivity. Qed.

(** X13.  The product of matrices is the composition of their maps: when
    the right factor is affine, [a @ b] maps a point to where [a] maps the
    image of the point under [b]; and the product of two affine matrices is
    affine. *)
Theorem matmul_composes (a b : mat3) (p : complex) :
  affine b ->
  apply_mat (a @ b) p = apply_mat a (apply_mat b p)
  /\ (affine a -> affine (a @ b)).
Proof.
  intros (B0 & B1 & B2).
  rewrite (mat3_eta a), (mat3_eta b), matmul_entries.
  unfold apply_mat, affine. cbn [a00 a01 a02 a10 a11 a12 a20 a21 a22 real imag].
  rewrite B0, B1, B2. split.
  - apply complex_eq; cbn [real imag]; ring.
  - intros (A0 & A1 & A2). rewrite A0, A1, A2. repeat split; ring.
Qed.

(** A scale after a translation. *)
Lemma matmul_composes_witness :
  affine (mat_trans (Cx 1 2))
  /\ apply_mat (mat_scale (Cx 3 4) @ mat_trans (Cx 1 2)) (Cx 5 6)
     = apply_mat (mat_scale (Cx 3 4)) (apply_mat (mat_trans (Cx 1 2)) (Cx 5 6))
  /\ (affine (mat_scale (Cx 3 4)) ->
      affine (mat_scale (Cx 3 4) @ mat_trans (Cx 1 2))).
Proof.
  assert (H : affine (mat_trans (Cx 1 2))) by (repeat split).
  split; [exact H|].
  exact (matmul_composes (mat_scale (Cx 3 4)) (mat_trans (Cx 1 2)) (Cx 5 6) H).
Defined.

(** X14.  What [svg_header] does to a point, for any size, scale, rotation
    and extents: the point is taken relative to the centre of the extents,
    scaled, mirrored in x, turned by the rotation (a complex product) and
    moved to the middle of the canvas. *)
Theorem svg_header_mat_acts (size scale rotation : complex)
    (extents : complex * complex) (p : complex) :
  apply_mat (svg_header_mat size scale rotation extents) p
  = cadd (cmul rotation
            (Cx (- (real scale * (real p - real (centre_of extents))))
                (imag scale * (imag p - imag (centre_of extents)))))
         (cdiv size 2).
Proof.
  unfold svg_header_mat. fold (centre_of extents).
  unfold mat_trans, mat_rot, mat_scale, cdiv, cneg. cbn [real imag].
  rewrite !matmul_entries.
  unfold apply_mat, cmul, cadd.
  cbn [a00 a01 a02 a10 a11 a12 real imag].
  apply complex_eq; cbn [real imag]; ring.
Qed.

End Matrices.

(** ** The written document *)

Section Written.

Lemma cleaned_0 group : cleaned group 0 = 0.
Proof. unfold cleaned. destruct (Rlt_dec _ _); reflexivity. Qed.

Lemma max_abs_of_diagonal s :
  max_abs_of [("m00", s); ("m10", 0); ("m01", 0); ("m11", - s)] = Rabs s.
Proof.
  apply max_abs_of_largest. split.
  - exists ("m00", s). split; [left; reflexivity | reflexivity].
  - intros kv [<- | [<- | [<- | [<- | []]]]]; cbn [snd];
      rewrite ?Rabs_R0, ?Rabs_Ropp; try apply Rabs_pos; apply Rle_refl.
Qed.

(** X15.  The matrix that is written is diagonal, whatever the clean-up
    does: when [S.x <> 0] the header of [write] carries the scale
    [W / S.x] as [m00], its opposite as [m11], and 0 as [m10] and [m01]. *)
Theorem written_matrix_is_diagonal
    (self : SvgPattern.t) (f : list chunk) (context : SvgOutContext.t) :
  let scale :=
    SvgOutputParams.width (SvgOutContext.params context)
    / real (pattern_size self) in
  real (pattern_size self) <> 0 ->
  exists fields rest,
    SvgPattern_write self f context = Ok (f ++ SVG_HEADER fields :: rest)
    /\ dict_get "m00" fields = Some scale
    /\ dict_get "m10" fields = Some 0
    /\ dict_get "m01" fields = Some 0
    /\ dict_get "m11" fields = Some (- scale).
Proof.
  intros scale HS.
  rewrite (SvgPattern_write_ok self f context HS). fold scale.
  eexists. eexists. split; [reflexivity|].
  rewrite svg_header_fields, rect_1_PI, svg_header_mat_half_turn.
  cbv zeta. cbn [a00 a01 a10 a11 real imag dict_get String.eqb Ascii.eqb
                 Bool.eqb].
  rewrite cleaned_0.
  rewrite !cleaned_largest
    by (rewrite max_abs_of_diagonal, ?Rabs_Ropp; reflexivity).
  repeat split.
Qed.

(** The unit square at target width 100. *)
Lemma written_matrix_is_diagonal_witness :
  let self := SvgPattern.mk (Cx 0 0, Cx 1 1) [] in
  let context :=
    SvgOutContext.init self
      (SvgOutputParams.mk "black" "red" 1 (MarginSpec.mk 0 0) 100 []) in
  exists fields rest,
    SvgPattern_write self [] context = Ok ([] ++ SVG_HEADER fields :: rest)
    /\ dict_get "m00" fields = Some (100 / (1 - 0))
    /\ dict_get "m10" fields = Some 0
    /\ dict_get "m01" fields = Some 0
    /\ dict_get "m11" fields = Some (- (100 / (1 - 0))).
Proof.
  apply (written_matrix_is_diagonal (SvgPattern.mk (Cx 0 0, Cx 1 1) []) []
           (SvgOutContext.init (SvgPattern.mk (Cx 0 0, Cx 1 1) [])
              (SvgOutputParams.mk "black" "red" 1 (MarginSpec.mk 0 0) 100
                 []))).
  simpl. lra.
Defined.

(** X16.  The drawing fits between the margins.  For a box with
    [S.x > 0] and [S.y >= 0] and a target width [W >= 0], the matrix of
    [write] takes every point of the extents to a point that is at least the
    margin away from the left and the top of the canvas, at most [W] further
    right and at most [W * S.y / S.x] further down. *)
Theorem drawing_fits_between_margins
    (self : SvgPattern.t) (params : SvgOutputParams.t) (p : complex) :
  let S := pattern_size self in
  let W := SvgOutputParams.width params in
  let M := MarginSpec.get (SvgOutputParams.margin params) in
  let scale := W / real S in
  let q :=
    apply_mat (svg_header_mat (overall_size self params scale)
                 (Cx scale scale) (rect 1 PI) (SvgPattern.extents self)) p in
  0 < real S -> 0 <= imag S -> 0 <= W ->
  contains (SvgPattern.extents self) p ->
  (real M <= real q <= real M + W)
  /\ (imag M <= imag q <= imag M + W * imag S / real S).
Proof.
  intros S W M scale q HSx HSy HW [[Hx0 Hx1] [Hy0 Hy1]].
  assert (Hscale : 0 <= scale)
    by (apply Rmult_le_pos; [exact HW | left; apply Rinv_0_lt_compat, HSx]).
  assert (HsS : scale * real S = W) by (unfold scale; field; lra).
  assert (Hh : W * imag S / real S = scale * imag S)
    by (unfold scale; field; lra).
  rewrite Hh. unfold q. rewrite rect_1_PI, svg_header_mat_half_turn.
  unfold apply_mat, overall_size, centre_of, cadd, csub, cdiv, cscale.
  cbn [a00 a01 a02 a10 a11 a12 real imag]. fold S W M.
  unfold S, pattern_size, csub in HsS, HSx, HSy |- *.
  cbn [real imag] in HsS, HSx, HSy |- *.
  set (x0 := real (fst (SvgPattern.extents self))) in *.
  set (x1 := real (snd (SvgPattern.extents self))) in *.
  set (y0 := imag (fst (SvgPattern.extents self))) in *.
  set (y1 := imag (snd (SvgPattern.extents self))) in *.
  pose proof (Rmult_le_pos scale (real p - x0) Hscale ltac:(lra)).
  pose proof (Rmult_le_pos scale (x1 - real p) Hscale ltac:(lra)).
  pose proof (Rmult_le_pos scale (imag p - y0) Hscale ltac:(lra)).
  pose proof (Rmult_le_pos scale (y1 - imag p) Hscale ltac:(lra)).
  split; split; nra.
Qed.

(** The middle of the unit square at target width 100. *)
Lemma drawing_fits_between_margins_witness :
  let self := SvgPattern.mk (Cx 0 0, Cx 1 1) [] in
  let params := SvgOutputParams.mk "black" "red" 1 (MarginSpec.mk 5 7) 100 [] in
  let p := Cx (1 / 2) (1 / 2) in
  let q :=
    apply_mat (svg_header_mat (overall_size self params (100 / (1 - 0)))
                 (Cx (100 / (1 - 0)) (100 / (1 - 0))) (rect 1 PI)
                 (SvgPattern.extents self)) p in
  (5 <= real q <= 5 + 100) /\ (7 <= imag q <= 7 + 100 * (1 - 0) / (1 - 0)).
Proof.
  apply (drawing_fits_between_margins (SvgPattern.mk (Cx 0 0, Cx 1 1) [])
           (SvgOutputParams.mk "black" "red" 1 (MarginSpec.mk 5 7) 100 [])
           (Cx (1 / 2) (1 / 2))).
  - simpl. lra.
  - simpl. lra.
  - simpl. lra.
  - unfold contains. simpl. lra.
Defined.

Lemma Zceil_pos x : 0 < x -> 1 <= IZR (Zceil x).
Proof.
  intros Hx. pose proof (Zceil_bound x) as [_ Hle].
  assert (H : (0 < Zceil x)%Z) by (apply lt_IZR; lra).
  apply IZR_le. lia.
Qed.

Lemma Zceil_nonneg x : 0 <= x -> 0 <= IZR (Zceil x).
Proof. intros Hx. pose proof (Zceil_bound x) as [_ Hle]. lra. Qed.

(** X17.  A pattern with any extent gets a visible stroke and a border
    offset of at least one unit: when [S.x + S.y > 0], the stroke width of
    the context is at least the line width of the parameters (taken
    non-negative) and at most that line width times
    [(S.x + S.y) / 1000 + 1], and the border offset unit is at least 1 on
    both axes. *)
Theorem context_widths
    (pattern : SvgPattern.t) (params : SvgOutputParams.t) :
  let S := pattern_size pattern in
  let context := SvgOutContext.init pattern params in
  let line_width := SvgOutputParams.line_width params in
  0 < real S + imag S -> 0 <= line_width ->
  (line_width <= SvgOutContext.line_width context
   <= ((real S + imag S) * (1 / 1000) + 1) * line_width)
  /\ 1 <= real (SvgOutContext.bounding_box_delta context)
  /\ 1 <= imag (SvgOutContext.bounding_box_delta context).
Proof.
  intros S context line_width HS Hlw.
  unfold context, SvgOutContext.init.
  cbn [SvgOutContext.line_width SvgOutContext.bounding_box_delta].
  fold (pattern_size pattern). fold S. fold line_width.
  unfold cscale. cbn [real imag].
  pose proof (Zceil_pos ((real S + imag S) * (1 / 1000)) ltac:(lra)) as H1.
  pose proof (Zceil_bound ((real S + imag S) * (1 / 1000))) as [H2 _].
  pose proof (Zceil_pos ((real S + imag S) * (2 / 100)) ltac:(lra)) as H3.
  repeat split; nra.
Qed.

(** The extents (0,0)-(10,10) with the default parameters. *)
Lemma context_widths_witness :
  let pattern := SvgPattern.mk (Cx 0 0, Cx 10 10) [] in
  let context := SvgOutContext.init pattern SvgOutputParams.default in
  (1 <= SvgOutContext.line_width context
   <= ((10 - 0 + (10 - 0)) * (1 / 1000) + 1) * 1)
  /\ 1 <= real (SvgOutContext.bounding_box_delta context)
  /\ 1 <= imag (SvgOutContext.bounding_box_delta context).
Proof.
  apply (context_widths (SvgPattern.mk (Cx 0 0, Cx 10 10) [])
           SvgOutputParams.default).
  - simpl. lra.
  - simpl. lra.
Defined.

(** X18.  Borders go around the pattern.  For extents whose corners are in
    order and a border with a non-negative margin factor, the border path of
    [write_svg] is a closed loop without a gap, and the rectangle it runs
    along contains every point of the extents. *)
Theorem borders_enclose_extents
    (self : SvgPattern.t) (params : SvgOutputParams.t)
    (border : BorderSpec.t) :
  let extents := SvgPattern.extents self in
  let offset :=
    cscale (BorderSpec.border_margin border)
      (SvgOutContext.bounding_box_delta (SvgOutContext.init self params)) in
  let corner := csub (fst extents) offset in
  let opposite := cadd (snd extents) offset in
  let path :=
    SvgPath.path
      (bounding_box_path extents (BorderSpec.color border) offset) in
  box_ordered extents -> 0 <= BorderSpec.border_margin border ->
  chained corner path
  /\ path_end corner path = corner
  /\ path_in (corner, opposite) path
  /\ (forall p, contains extents p -> contains (corner, opposite) p).
Proof.
  intros extents offset corner opposite path [Hx Hy] Hm.
  assert (Hdelta :
    0 <= IZR (Zceil ((real (pattern_size self) + imag (pattern_size self))
                     * (2 / 100)))).
  { apply Zceil_nonneg. unfold pattern_size, csub. cbn [real imag].
    fold extents. lra. }
  assert (Hoff : 0 <= real offset /\ 0 <= imag offset).
  { unfold offset, SvgOutContext.init, cscale.
    cbn [SvgOutContext.bounding_box_delta real imag].
    fold (pattern_size self). split; nra. }
  destruct Hoff as [Hox Hoy].
  assert (Hin : forall p, contains extents p -> contains (corner, opposite) p).
  { intros p [[Hp1 Hp2] [Hp3 Hp4]].
    unfold contains, corner, opposite, csub, cadd. cbn [fst snd real imag].
    lra. }
  assert (Hc : forall a b,
             (a = real corner \/ a = real opposite) ->
             (b = imag corner \/ b = imag opposite) ->
             contains (corner, opposite) (Cx a b)).
  { intros a b Ha Hb. unfold contains, corner, opposite, csub, cadd in *.
    cbn [fst snd real imag] in *. destruct Ha, Hb; subst; lra. }
  assert (Hcorner : corner = Cx (real corner) (imag corner))
    by (destruct corner; reflexivity).
  assert (Hopp : opposite = Cx (real opposite) (imag opposite))
    by (destruct opposite; reflexivity).
  unfold path, bounding_box_path. cbn [SvgPath.path]. fold corner opposite.
  split; [|split; [|split]].
  - cbn [chained segment_start segment_end]. repeat split.
  - reflexivity.
  - unfold path_in, segment_points. cbn [segment_start segment_end].
    repeat (constructor;
            [repeat (constructor;
                     [first [ rewrite Hcorner; apply Hc; auto
                            | rewrite Hopp; apply Hc; auto
                            | apply Hc; auto ] |]);
             constructor |]).
    constructor.
  - exact Hin.
Qed.

(** The default border around the extents (0,0)-(10,10). *)
Lemma borders_enclose_extents_witness :
  let self := SvgPattern.mk (Cx 0 0, Cx 10 10) [] in
  let extents := SvgPattern.extents self in
  let offset :=
    cscale 1
      (SvgOutContext.bounding_box_delta
         (SvgOutContext.init self SvgOutputParams.default)) in
  let corner := csub (fst extents) offset in
  let opposite := cadd (snd extents) offset in
  let path := SvgPath.path (bounding_box_path extents "blue" offset) in
  chained corner path
  /\ path_end corner path = corner
  /\ path_in (corner, opposite) path
  /\ (forall p, contains extents p -> contains (corner, opposite) p).
Proof.
  apply (borders_enclose_extents (SvgPattern.mk (Cx 0 0, Cx 10 10) [])
           SvgOutputParams.default (BorderSpec.mk "blue" 1)).
  - unfold box_ordered. simpl. lra.
  - simpl. lra.
Defined.

End Written.
